(** * A same-domain crawler and its link graph

    Shallow embedding of [pagerank_crawl_and_visualize.py]:
    [same_domain], [normalize], [crawl], [compute_and_visualize] and [main].

    Python values are modelled as follows.
    - [str] is [string]; the [set] of visited URLs is a [gset string]; the
      frontier list [to_visit] is a [list string] with [pop(0)] taking the head
      and [append] adding at the end.
    - [nx.DiGraph] is a record with a node set and an edge set; [add_node]
      and [add_edge] are idempotent.  The ['weight'] attribute of the edges,
      written once by [compute_and_visualize], is a finite map from edges to
      scores.
    - The effects of [crawl] (HTTP requests, failure messages) are kept as a
      trace in the state of the loop, the printing of [main] and
      [compute_and_visualize] as a trace of events.
    - The [while] loop is a step function [loop_body] iterated by
      [crawl_loop] under a bound on the number of passes; the bound is shown
      to be reached by no run that has [Z.to_nat max_pages] passes.
    - [max_pages] is a Python [int], hence [Z]; it may be zero or negative.
    - The library calls the script makes are parameters of the development,
      each with [None] for a call that raises: [requests_get] (the HTTP GET
      together with [resp.text], both inside the [try] block), [find_hrefs]
      (the [BeautifulSoup] construction and [find_all("a", href=True)], both
      outside the [try] block), [urljoin], [netloc] (for
      [urlparse(x).netloc]), [defrag_parsed] (the parse and re-serialisation
      inside [urldefrag]) and [pagerank] (for [nx.pagerank]).  The URL
      functions raise [ValueError] on malformed input, outside any [try]
      block of the script.
    - [urldefrag] follows the standard library: a URL without ['#'] is
      returned unchanged with an empty fragment; a URL with ['#'] is parsed
      and put together again without its fragment. *)

From stdpp Require Import base gmap sets list strings.
From Stdlib Require Import ZArith Lia Ascii String.

(* [set_solver] clears hypotheses that are already gone. *)
#[local] Set Warnings "-clear-no-such-hyp".

Open Scope string_scope.
Open Scope Z_scope.
Open Scope list_scope.

(** ** Strings of URLs *)

Module Url.

(** [s.rstrip(c)] for a one-character argument: drop every trailing [c]. *)
Fixpoint rstrip (c : ascii) (s : string) : string :=
  match s with
  | EmptyString => EmptyString
  | String a t =>
      match rstrip c t with
      | EmptyString => if Ascii.eqb a c then EmptyString else String a EmptyString
      | t' => String a t'
      end
  end.

(** [c in s]. *)
Fixpoint contains (c : ascii) (s : string) : bool :=
  match s with
  | EmptyString => false
  | String a t => Ascii.eqb a c || contains c t
  end.

(** What the specification asks for instead of [rstrip]: a single trailing
    ['/'] is removed from a non-empty string. *)
Fixpoint strip_one_slash (s : string) : string :=
  match s with
  | EmptyString => EmptyString
  | String a EmptyString => if Ascii.eqb a "/" then EmptyString else s
  | String a t => String a (strip_one_slash t)
  end.

(** [n] copies of ['/']. *)
Fixpoint slashes (n : nat) : string :=
  match n with
  | O => EmptyString
  | S k => String "/" (slashes k)
  end.


End Url.

(** ** The link graph *)

(** [nx.DiGraph]: a node set and a set of directed edges.  The attribute
    dictionaries of the edges stay empty during the crawl; the ['weight']
    attribute written by [compute_and_visualize] is kept in a finite map
    from edges to weights next to the graph. *)
Record DiGraph := mkDiGraph {
  nodes : gset string;
  edges : gset (string * string)
}.

Module Graph.

(** [nx.DiGraph()]. *)
Definition empty : DiGraph := mkDiGraph ∅ ∅.

(** [G.add_node(u)]: no effect when [u] is already a node. *)
Definition add_node (u : string) (G : DiGraph) : DiGraph :=
  mkDiGraph ({[u]} ∪ nodes G) (edges G).

(** [G.add_edge(u, v)]: adds both end points as nodes when they are missing;
    no effect on an edge that is already there. *)
Definition add_edge (u v : string) (G : DiGraph) : DiGraph :=
  mkDiGraph ({[u]} ∪ ({[v]} ∪ nodes G)) ({[(u, v)]} ∪ edges G).

(** [len(G)]: the number of nodes. *)
Definition len (G : DiGraph) : nat := size (nodes G).

End Graph.

(** ** The collaborators *)

(** The library functions the crawler calls; [None] stands for a call that
    raises. *)
Class Web := {
  (** [requests.get(url, timeout=8).text]. *)
  requests_get : string → option string;
  (** the [href] attributes of [BeautifulSoup(content, "html.parser")
      .find_all("a", href=True)], in document order. *)
  find_hrefs : string → option (list string);
  (** [urljoin(base, href)]. *)
  urljoin : string → string → option string;
  (** [urlparse(url).netloc]. *)
  netloc : string → option string;
  (** inside [urldefrag], for a URL with a ['#']: with
      [s, n, p, a, q, frag = urlparse(url)], the pair of
      [urlunparse((s, n, p, a, q, ''))] and [frag]. *)
  defrag_parsed : string → option (string * string)
}.

(** What the crawl does to the outside world, in order. *)
Inductive crawl_event :=
  | Get (url : string)                (* requests.get(url, timeout=8) *)
  | PrintFailed (url : string).       (* print(f"Failed to fetch {url}: {e}") *)

(** The local variables of [crawl] and the trace of its effects. *)
Record crawl_state := mkState {
  to_visit : list string;
  visited : gset string;
  G : DiGraph;
  log : list crawl_event
}.

(** How the loop over the links of a page ends: after the last link, or with
    an exception (with the graph and the frontier as they were then). *)
Inductive links_result :=
  | Linked (acc : DiGraph * list string)
  | LinkRaise (acc : DiGraph * list string).

(** How one run of the loop body ends: at the next test of the loop
    condition, or with an exception leaving [crawl] (with the locals as they
    were when it was raised). *)
Inductive body_result :=
  | Continue (st : crawl_state)
  | Raise (st : crawl_state).

(** How [crawl] ends: by returning, with an exception out of the loop, or
    with an exception before the loop (lines 34 and 35). *)
Inductive outcome :=
  | Returned (st : crawl_state)
  | Raised (st : crawl_state)
  | RaisedBefore.

Section Crawler.
Context {W : Web}.

(** [urldefrag(url)]: the pair of the URL without its fragment and the
    fragment.
<<
    if '#' in url:
        s, n, p, a, q, frag = urlparse(url)
        defrag = urlunparse((s, n, p, a, q, ''))
    else:
        frag = ''
        defrag = url
>> *)
Definition urldefrag (url : string) : option (string * string) :=
  if Url.contains "#" url then defrag_parsed url
  else Some (url, EmptyString).

(** [normalize(url)]:
<<
    url, _ = urldefrag(url)
    return url.rstrip('/')
>> *)
Definition normalize (url : string) : option string :=
  match urldefrag url with
  | Some (url, _) => Some (Url.rstrip "/" url)
  | None => None
  end.

(** The normaliser as the specification words it: after the fragment is
    removed, a single trailing ['/'] is removed from a non-empty string. *)
Definition normalize_spec (url : string) : option string :=
  match urldefrag url with
  | Some (url, _) => Some (Url.strip_one_slash url)
  | None => None
  end.

(** [same_domain(a, b)]: [urlparse(a).netloc == urlparse(b).netloc]. *)
Definition same_domain (a b : string) : option bool :=
  match netloc a with
  | None => None
  | Some na =>
      match netloc b with
      | None => None
      | Some nb => Some (bool_decide (na = nb))
      end
  end.

(** The canonical absolute URL of a link [href] found on page [url]:
    [normalize(urljoin(url, href))]. *)
Definition resolve (url href : string) : option string :=
  match urljoin url href with
  | None => None
  | Some full => normalize full
  end.

(** One pass of the [for a in soup.find_all(...)] loop, on the graph and the
    frontier; [url] is the page being read and [V] the visited set:
<<
    full = urljoin(url, href)
    full = normalize(full)
    if same_domain(root, full):
        G.add_node(full)
        G.add_edge(url, full)
        if full not in visited and full not in to_visit:
            to_visit.append(full)
>> *)
Definition visit_link (root url : string) (V : gset string)
    (acc : DiGraph * list string) (href : string) : links_result :=
  let '(G, to_visit) := acc in
  match urljoin url href with
  | None => LinkRaise (G, to_visit)
  | Some full =>
      match normalize full with
      | None => LinkRaise (G, to_visit)
      | Some full =>
          match same_domain root full with
          | None => LinkRaise (G, to_visit)
          | Some true =>
              let G := Graph.add_node full G in
              let G := Graph.add_edge url full G in
              if bool_decide (full ∉ V) && bool_decide (full ∉ to_visit)
              then Linked (G, to_visit ++ [full])
              else Linked (G, to_visit)
          | Some false => Linked (G, to_visit)
          end
      end
  end.

(** The next link of the [for] loop: nothing more is done once an exception
    was raised. *)
Definition visit_next (root url : string) (V : gset string)
    (r : links_result) (href : string) : links_result :=
  match r with
  | Linked acc => visit_link root url V acc href
  | LinkRaise acc => LinkRaise acc
  end.

(** The whole [for] loop over the links of a page, in document order. *)
Definition visit_links (root url : string) (V : gset string)
    (hrefs : list string) (acc : DiGraph * list string) : links_result :=
  fold_left (visit_next root url V) hrefs (Linked acc).

(** The body of the [while] loop; [root] is the normalised root. *)
Definition loop_body (root : string) (st : crawl_state) : body_result :=
  match to_visit st with
  | [] => Raise st                       (* pop from an empty list *)
  | url :: rest =>                       (* url = to_visit.pop(0) *)
      if bool_decide (url ∈ visited st) then
        Continue (mkState rest (visited st) (G st) (log st))
      else
        match requests_get url with
        | None =>
            Continue (mkState rest ({[url]} ∪ visited st) (G st)
                        (log st ++ [Get url; PrintFailed url]))
        | Some content =>
            let V := {[url]} ∪ visited st in
            match find_hrefs content with
            | None => Raise (mkState rest V (G st) (log st ++ [Get url]))
            | Some hrefs =>
                match visit_links root url V hrefs
                        (Graph.add_node url (G st), rest) with
                | Linked (G', to_visit') =>
                    Continue (mkState to_visit' V G' (log st ++ [Get url]))
                | LinkRaise (G', to_visit') =>
                    Raise (mkState to_visit' V G' (log st ++ [Get url]))
                end
            end
        end
  end.

(** [to_visit and len(visited) < max_pages]. *)
Definition loop_cond (max_pages : Z) (st : crawl_state) : bool :=
  bool_decide (to_visit st ≠ []) && (Z.of_nat (size (visited st)) <? max_pages)%Z.

(** The [while] loop, run for at most [fuel] passes of its body; [None] when
    the passes do not suffice. *)
Fixpoint crawl_loop (root : string) (max_pages : Z) (fuel : nat)
    (st : crawl_state) : option outcome :=
  if loop_cond max_pages st then
    match fuel with
    | O => None
    | S fuel' =>
        match loop_body root st with
        | Continue st' => crawl_loop root max_pages fuel' st'
        | Raise st' => Some (Raised st')
        end
    end
  else Some (Returned st).

(** The locals before the loop, for a normalised root. *)
Definition init (root : string) : crawl_state :=
  mkState [root] ∅ Graph.empty [].

(** [crawl(root, max_pages)]: the state the loop ends in; the graph returned
    is its [G].
<<
    root = normalize(root)
    domain = urlparse(root).netloc
    to_visit = [root]
    ...
>> *)
Definition crawl (root : string) (max_pages : Z) (fuel : nat) : option outcome :=
  match normalize root with
  | None => Some RaisedBefore
  | Some root =>
      match netloc root with
      | None => Some RaisedBefore
      | Some domain => crawl_loop root max_pages fuel (init root)
      end
  end.

(** The states in which the loop condition is tested. *)
Inductive loop_head (root : string) (max_pages : Z) : crawl_state → Prop :=
  | head_init : loop_head root max_pages (init root)
  | head_next st st' :
      loop_head root max_pages st →
      loop_cond max_pages st = true →
      loop_body root st = Continue st' →
      loop_head root max_pages st'.

(** Every state the locals are in while [crawl] runs: at a loop head, or when
    an exception leaves the body. *)
Inductive crawl_point (root : string) (max_pages : Z) : crawl_state → Prop :=
  | point_head st : loop_head root max_pages st → crawl_point root max_pages st
  | point_raise st st' :
      loop_head root max_pages st →
      loop_cond max_pages st = true →
      loop_body root st = Raise st' →
      crawl_point root max_pages st'.

(** The test of line 41 in a state: the dequeued URL is already visited. *)
Definition skips (st : crawl_state) : bool :=
  match to_visit st with
  | [] => false
  | url :: _ => bool_decide (url ∈ visited st)
  end.

(** The page was fetched and parsed. *)
Definition fetched (u : string) : Prop :=
  ∃ content hrefs,
    requests_get u = Some content ∧ find_hrefs content = Some hrefs.

(** The same-domain links of a page that was fetched and parsed. *)
Definition links_to (root u v : string) : Prop :=
  ∃ content hrefs href,
    requests_get u = Some content ∧ find_hrefs content = Some hrefs ∧
    href ∈ hrefs ∧ resolve u href = Some v ∧ same_domain root v = Some true.

(** A link on which [urljoin], [normalize] or [same_domain] raises. *)
Definition link_raises (root url href : string) : Prop :=
  resolve url href = None ∨
  ∃ full, resolve url href = Some full ∧ same_domain root full = None.

(** The same-domain pages reachable from the normalised root. *)
Inductive reachable (root : string) : string → Prop :=
  | reach_root : reachable root root
  | reach_link u v : reachable root u → links_to root u v → reachable root v.

(** What holds of the graph [G'] and the frontier [tv'] after the links
    [pre] of page [url] have been read, starting from [G0] and [tv0]. *)
Record links_seen (root url : string) (V : gset string) (G0 : DiGraph)
    (tv0 pre : list string) (G' : DiGraph) (tv' : list string) : Prop := {
  seen_new : ∃ new, tv' = tv0 ++ new ∧ NoDup new ∧
             ∀ x, x ∈ new →
                  (x ∉ V) ∧ (x ∉ tv0) ∧ same_domain root x = Some true ∧
                  ∃ h, h ∈ pre ∧ resolve url h = Some x;
  seen_edges : ∀ e, e ∈ edges G' ↔
               e ∈ edges G0 ∨
               ∃ h v, h ∈ pre ∧ resolve url h = Some v ∧
                      same_domain root v = Some true ∧ e = (url, v);
  seen_nodes : ∀ n, n ∈ nodes G' ↔
               n ∈ nodes G0 ∨
               ∃ h v, h ∈ pre ∧ resolve url h = Some v ∧
                      same_domain root v = Some true ∧ (n = url ∨ n = v);
  seen_queued : ∀ h v, h ∈ pre → resolve url h = Some v →
                same_domain root v = Some true → v ∈ V ∨ v ∈ tv';
  seen_resolved : ∀ h, h ∈ pre →
                  ∃ full b, resolve url h = Some full ∧
                            same_domain root full = Some b
}.

(** What holds of the locals whenever the loop condition is tested. *)
Record crawl_inv (root : string) (max_pages : Z) (st : crawl_state) : Prop := {
  inv_nodup : NoDup (to_visit st);
  inv_fresh : ∀ u, u ∈ to_visit st → u ∉ visited st;
  inv_domain : ∀ u, u ∈ to_visit st ∨ u ∈ visited st →
               (u = root ∨ same_domain root u = Some true) ∧ reachable root u;
  inv_root : root ∈ visited st ∨ root ∈ to_visit st;
  inv_closed : ∀ u v, u ∈ visited st → links_to root u v →
               v ∈ visited st ∨ v ∈ to_visit st;
  inv_edges : ∀ u v, (u, v) ∈ edges (G st) ↔ u ∈ visited st ∧ links_to root u v;
  inv_nodes : ∀ n, n ∈ nodes (G st) ↔
              (n ∈ visited st ∧ fetched n) ∨ ∃ u, (u, n) ∈ edges (G st);
  inv_budget : Z.of_nat (size (visited st)) ≤ Z.max 0 max_pages;
  inv_get : ∀ u, Get u ∈ log st ↔ u ∈ visited st;
  inv_failed : ∀ u, PrintFailed u ∈ log st ↔
               u ∈ visited st ∧ requests_get u = None;
  inv_log : NoDup (log st);
  inv_resolved : ∀ u content hrefs href,
               u ∈ visited st → requests_get u = Some content →
               find_hrefs content = Some hrefs → href ∈ hrefs →
               ∃ full b, resolve u href = Some full ∧
                         same_domain root full = Some b
}.

End Crawler.

(** ** PageRank, edge weights and the command line *)

(** [nx.pagerank(G, alpha=0.85)]: the scores are floating-point numbers of a
    library, kept abstract; [zero] is [0.0]; [None] when the call raises. *)
Class Ranker := {
  score : Type;
  zero : score;
  pagerank : DiGraph → option (gmap string score)
}.

Section Visualize.
Context {R : Ranker}.

(** What [compute_and_visualize] and [main] do to the outside world. *)
Inductive event :=
  | PrintCrawled (n m : nat)    (* print(f"Crawled {n} nodes and {m} edges") *)
  | PrintEmpty                  (* print("Graph empty, nothing to do.") *)
  | Pagerank (G : DiGraph)      (* nx.pagerank(G, alpha=0.85) *)
  | Savefig (G : DiGraph) (weight : gmap (string * string) score)
      (out_pdf : string)        (* the drawing of the weighted graph, saved *)
  | PrintSaved (out_pdf : string).

(** A run of a procedure: its trace, and whether it returned or raised. *)
Inductive run :=
  | Done (trace : list event)
  | Failed (trace : list event).

(** The ['weight'] attributes after
<<
    for u, v in G.edges():
        G[u][v]['weight'] = pr.get(u, 0.0)
>> *)
Definition edge_weights (pr : gmap string score) (G : DiGraph)
    : gmap (string * string) score :=
  set_to_map (λ e : string * string, (e, default zero (pr !! fst e))) (edges G).

(** [compute_and_visualize(G, out_pdf)].  The layout and drawing calls between
    the weighting and [plt.savefig] are summed up in the [Savefig] event;
    [pr[n]] in the node sizes raises when a node has no score. *)
Definition compute_and_visualize (G : DiGraph) (out_pdf : string) : run :=
  if bool_decide (Graph.len G = 0%nat) then Done [PrintEmpty]
  else
    match pagerank G with
    | None => Failed [Pagerank G]
    | Some pr =>
        let weight := edge_weights pr G in
        if bool_decide (nodes G ⊆ dom pr)
        then Done [Pagerank G; Savefig G weight out_pdf; PrintSaved out_pdf]
        else Failed [Pagerank G]
    end.

(** [main()] after the arguments are parsed: [None] when [fuel] passes of the
    crawl loop do not suffice. *)
Definition main {W : Web} (root : string) (max_pages : Z) (output : string)
    (fuel : nat) : option run :=
  match crawl root max_pages fuel with
  | None => None
  | Some (Raised _) => Some (Failed [])
  | Some RaisedBefore => Some (Failed [])
  | Some (Returned st) =>
      let G := G st in
      let crawled := PrintCrawled (size (nodes G)) (size (edges G)) in
      Some match compute_and_visualize G output with
           | Done t => Done (crawled :: t)
           | Failed t => Failed (crawled :: t)
           end
  end.

End Visualize.

(** ** A small site *)

Module Site.

(** The text after the first ["//"] of a URL. *)
Fixpoint after_slashes (s : string) : option string :=
  match s with
  | EmptyString => None
  | String a t =>
      match t with
      | String b t' =>
          if Ascii.eqb a "/" && Ascii.eqb b "/" then Some t' else after_slashes t
      | EmptyString => None
      end
  end.

(** The text up to the first of ['/'], ['?'] and ['#']. *)
Fixpoint authority (s : string) : string :=
  match s with
  | EmptyString => EmptyString
  | String a t =>
      if Ascii.eqb a "/" || Ascii.eqb a "?" || Ascii.eqb a "#" then EmptyString
      else String a (authority t)
  end.

(** The network location; a ['['] without [']'] in it, or a [']'] without
    ['['], is an error. *)
Definition site_netloc (url : string) : option string :=
  match after_slashes url with
  | Some t =>
      let n := authority t in
      if Bool.eqb (Url.contains "[" n) (Url.contains "]" n) then Some n
      else None
  | None => Some EmptyString
  end.

(** The text before the first ['#'] and the text after it. *)
Fixpoint split_hash (url : string) : string * string :=
  match url with
  | EmptyString => (EmptyString, EmptyString)
  | String a t =>
      if Ascii.eqb a "#" then (EmptyString, t)
      else let '(d, f) := split_hash t in (String a d, f)
  end.

(** The re-serialisation inside [urldefrag], on the URLs of the pages below:
    the URL is cut at the first ['#']. *)
Definition site_defrag (url : string) : option (string * string) :=
  match site_netloc (fst (split_hash url)) with
  | None => None
  | Some _ => Some (split_hash url)
  end.

(** [urljoin] on the two kinds of [href] the pages below use: an absolute
    [http] URL replaces the base, a fragment-only reference is added to the
    base without its fragment. *)
Definition site_urljoin (base href : string) : option string :=
  match href with
  | String a _ =>
      if Ascii.eqb a "#" then Some (fst (split_hash base) +:+ href)%string
      else match site_netloc href with
           | None => None
           | Some _ => Some href
           end
  | EmptyString => Some (fst (split_hash base))
  end.

Definition home_html : string :=
  "<a href='http://a.com/about'>About</a> <a href='http://a.com/contact/'>Contact</a> <a href='#top'>Top</a> <a href='http://b.org/x'>Elsewhere</a>".

Definition about_html : string :=
  "<a href='http://a.com/contact'>Contact</a> <a href='http://a.com/missing'>Missing</a>".

Definition contact_html : string := "<p>Write to us.</p>".

(** Markup that the parser rejects. *)
Definition rejected_html : string := "<![status[ <a href='http://c.net/next'>Next</a>".

(** A page with a link that [urljoin] rejects. *)
Definition broken_link_html : string :=
  "<a href='http://d.org/fine'>Fine</a> <a href='http://[bad'>Broken</a>".

Definition site_get (url : string) : option string :=
  if String.eqb url "http://a.com" then Some home_html
  else if String.eqb url "http://a.com/about" then Some about_html
  else if String.eqb url "http://a.com/contact" then Some contact_html
  else if String.eqb url "http://c.net" then Some rejected_html
  else if String.eqb url "http://d.org" then Some broken_link_html
  else None.

Definition site_hrefs (content : string) : option (list string) :=
  if String.eqb content home_html then
    Some ["http://a.com/about"; "http://a.com/contact/"; "#top"; "http://b.org/x"]
  else if String.eqb content about_html then
    Some ["http://a.com/contact"; "http://a.com/missing"]
  else if String.eqb content rejected_html then None
  else if String.eqb content broken_link_html then
    Some ["http://d.org/fine"; "http://[bad"]
  else Some [].

#[local] Instance web : Web := {
  requests_get := site_get;
  find_hrefs := site_hrefs;
  urljoin := site_urljoin;
  netloc := site_netloc;
  defrag_parsed := site_defrag
}.

(** Scores as numbers of thousandths, uniform over the nodes. *)
Definition uniform (G : DiGraph) : option (gmap string Z) :=
  Some (set_to_map (λ n : string, (n, 1000 / Z.of_nat (size (nodes G)))) (nodes G)).

#[local] Instance ranker : Ranker := {
  score := Z;
  zero := 0;
  pagerank := uniform
}.

(** A ranker that raises on every graph. *)
Definition failing : Ranker := {|
  score := Z;
  zero := 0;
  pagerank := λ _, None
|}.

(** The root page and the locals after the first pass of the loop on it. *)
Definition home : string := "http://a.com".

Definition after_home : crawl_state :=
  match loop_body home (init home) with
  | Continue st => st
  | Raise st => st
  end.

(** The locals when the crawl of the home page with a budget of ten pages
    returns. *)
Definition crawled : crawl_state :=
  match crawl "http://a.com/" 10 10 with
  | Some (Returned st) => st
  | _ => init home
  end.

(** The locals when the crawl of the home page with a budget of two pages
    returns. *)
Definition budgeted : crawl_state :=
  match crawl "http://a.com/" 2 2 with
  | Some (Returned st) => st
  | _ => init home
  end.

(** The scores of the graph after the first pass. *)
Definition home_scores : gmap string Z :=
  default ∅ (uniform (G after_home)).

End Site.

(** ** The requests of a crawl and the labels of the drawing *)

(** The URLs of the HTTP requests in a trace, in order. *)
Fixpoint requested (l : list crawl_event) : list string :=
  match l with
  | [] => []
  | Get url :: l' => url :: requested l'
  | PrintFailed _ :: l' => requested l'
  end.

(** The later state holds all that the earlier one holds: the visited set,
    the nodes and the edges are supersets, and the trace is an extension. *)
Definition grows (st st' : crawl_state) : Prop :=
  visited st ⊆ visited st' ∧
  nodes (G st) ⊆ nodes (G st') ∧
  edges (G st) ⊆ edges (G st') ∧
  ∃ tail, log st' = log st ++ tail.

Module Label.

(** [old in s] for strings: [old] starts at some position of [s]. *)
Fixpoint occurs (old s : string) : bool :=
  String.prefix old s ||
  match s with
  | EmptyString => false
  | String _ t => occurs old t
  end.

(** [s.replace(old, '')] read from the left: where [old] starts it is left
    out and the scan goes on after it; [skip] counts the characters of the
    occurrence still to be left out. *)
Fixpoint remove_from (old : string) (skip : nat) (s : string) : string :=
  match s with
  | EmptyString => EmptyString
  | String a t =>
      match skip with
      | S k => remove_from old k t
      | O =>
          if String.prefix old s
          then remove_from old (String.length old - 1) t
          else String a (remove_from old 0 t)
      end
  end.

(** [s.replace(old, '')]; with an empty [old] the string is unchanged. *)
Definition remove_all (old s : string) : string :=
  match old with
  | EmptyString => s
  | _ => remove_from old 0 s
  end.

(** The label of a node in the drawing:
    [n.replace('https://', '').replace('http://', '')]. *)
Definition label (n : string) : string :=
  remove_all "http://" (remove_all "https://" n).

(** [labels = {n: ... for n in G.nodes()}]. *)
Definition labels (G : DiGraph) : gmap string string :=
  set_to_map (λ n : string, (n, label n)) (nodes G).

End Label.

(** * Properties *)

(** ** URL normalisation *)

Section NormalizeFacts.
Context {W : Web}.

Local Notation "s +++ t" := (String.append s t) (at level 60, right associativity).

Lemma append_cons a s t : String a s +++ t = String a (s +++ t).
Proof. reflexivity. Qed.

Lemma rstrip_empty_inv s :
  Url.rstrip "/" s = EmptyString → ∃ k, s = Url.slashes k.
Proof.
  induction s as [|a t IH]; simpl.
  - intros _. by exists O.
  - destruct (Url.rstrip "/" t) eqn:Ht; [|done].
    destruct (Ascii.eqb a "/") eqn:Ha; [|done].
    intros _. apply Ascii.eqb_eq in Ha as ->.
    destruct (IH eq_refl) as [k ->]. by exists (S k).
Qed.

Lemma rstrip_decompose s :
  ∃ k, s = Url.rstrip "/" s +++ Url.slashes k.
Proof.
  induction s as [|a t [k IH]]; simpl.
  - by exists O.
  - destruct (Url.rstrip "/" t) as [|b t'] eqn:Ht.
    + destruct (rstrip_empty_inv t Ht) as [j ->].
      destruct (Ascii.eqb a "/") eqn:Ha.
      * apply Ascii.eqb_eq in Ha as ->. by exists (S j).
      * by exists j.
    + exists k. rewrite IH at 1. reflexivity.
Qed.


Lemma rstrip_slashes k : Url.rstrip "/" (Url.slashes k) = EmptyString.
Proof. induction k as [|k IH]; simpl; [done|by rewrite IH]. Qed.

Lemma rstrip_app_slashes s k :
  Url.rstrip "/" (s +++ Url.slashes k) = Url.rstrip "/" s.
Proof.
  induction s as [|a t IH]; simpl.
  - apply rstrip_slashes.
  - by rewrite IH.
Qed.

Lemma rstrip_idem s : Url.rstrip "/" (Url.rstrip "/" s) = Url.rstrip "/" s.
Proof.
  destruct (rstrip_decompose s) as [k Hk].
  rewrite Hk at 2. by rewrite rstrip_app_slashes.
Qed.

Lemma contains_app c s t :
  Url.contains c (s +++ t) = Url.contains c s || Url.contains c t.
Proof.
  induction s as [|a s IH]; simpl; [done|].
  rewrite IH. by rewrite orb_assoc.
Qed.

Lemma rstrip_no_hash s :
  Url.contains "#" s = false → Url.contains "#" (Url.rstrip "/" s) = false.
Proof.
  intros Hs. destruct (rstrip_decompose s) as [k Hk].
  rewrite Hk, contains_app in Hs. by apply orb_false_iff in Hs as [? _].
Qed.


(** A URL without a fragment mark is its own defragmented form. *)
Lemma urldefrag_plain s :
  Url.contains "#" s = false → urldefrag s = Some (s, EmptyString).
Proof. intros Hs. unfold urldefrag. by rewrite Hs. Qed.

(** Normalising a URL without a fragment mark is [rstrip]. *)
Lemma normalize_plain s :
  Url.contains "#" s = false → normalize s = Some (Url.rstrip "/" s).
Proof. intros Hs. unfold normalize. by rewrite urldefrag_plain. Qed.


End NormalizeFacts.



Example normalize_fragment :
  normalize (W:=Site.web) "http://a.com/b/#top" = Some "http://a.com/b".
Proof. reflexivity. Qed.

Example normalize_many_slashes :
  normalize (W:=Site.web) "http://a.com/b///" = Some "http://a.com/b".
Proof. reflexivity. Qed.

Example normalize_spec_one_slash :
  normalize_spec (W:=Site.web) "http://a.com/b///" = Some "http://a.com/b//".
Proof. reflexivity. Qed.

Example normalize_malformed :
  normalize (W:=Site.web) "http://[bad#x" = None.
Proof. reflexivity. Qed.

(** ** The crawl loop *)

(** Project the fields of explicit states and graphs, and nothing else. *)
Ltac state_fields :=
  cbn [to_visit visited G log nodes edges fst snd] in *.

Section CrawlFacts.
Context {W : Web}.
Variables (root : string) (max_pages : Z).

Lemma same_domain_true a b :
  same_domain a b = Some true ↔ ∃ n, netloc a = Some n ∧ netloc b = Some n.
Proof.
  unfold same_domain. destruct (netloc a) as [na|], (netloc b) as [nb|].
  - split.
    + intros [= H]. apply bool_decide_eq_true in H as ->. by exists nb.
    + intros (n & [= ->] & [= ->]). by rewrite bool_decide_eq_true_2.
  - split; [done|]. by intros (n & _ & ?).
  - split; [done|]. by intros (n & ? & _).
  - split; [done|]. by intros (n & ? & _).
Qed.


(** One link: what [visit_link] does to the graph and to the frontier. *)
Lemma visit_link_eq url V G0 tv href :
  visit_link root url V (G0, tv) href =
    match resolve url href with
    | None => LinkRaise (G0, tv)
    | Some full =>
        match same_domain root full with
        | None => LinkRaise (G0, tv)
        | Some true =>
            Linked (Graph.add_edge url full (Graph.add_node full G0),
                    if bool_decide (full ∉ V) && bool_decide (full ∉ tv)
                    then tv ++ [full] else tv)
        | Some false => Linked (G0, tv)
        end
    end.
Proof.
  unfold visit_link, resolve.
  destruct (urljoin url href) as [joined|]; [|done].
  destruct (normalize joined) as [full|]; [|done].
  destruct (same_domain root full) as [[|]|]; [|done..].
  by destruct (_ && _).
Qed.

Lemma links_seen_nil url V G0 tv0 : links_seen root url V G0 tv0 [] G0 tv0.
Proof.
  constructor.
  - exists []. rewrite app_nil_r. split_and!; [done|constructor|].
    intros x Hx. by apply elem_of_nil in Hx.
  - intros e. split; [by left|]. intros [?|(h & v & Hh & _)]; [done|].
    by apply elem_of_nil in Hh.
  - intros n. split; [by left|]. intros [?|(h & v & Hh & _)]; [done|].
    by apply elem_of_nil in Hh.
  - intros h v Hh. by apply elem_of_nil in Hh.
  - intros h Hh. by apply elem_of_nil in Hh.
Qed.

(** A link into another domain changes nothing. *)
Lemma links_seen_other url V G0 tv0 pre G1 tv1 h full :
  links_seen root url V G0 tv0 pre G1 tv1 →
  resolve url h = Some full → same_domain root full = Some false →
  links_seen root url V G0 tv0 (pre ++ [h]) G1 tv1.
Proof.
  intros [(new & Htv & Hnd & Hnew) Hedges Hnodes Hqueued Hres] Hfull Hdom.
  constructor.
  - exists new. split_and!; [done..|].
    intros x Hx. destruct (Hnew x Hx) as (? & ? & ? & h' & ? & ?).
    split_and!; [done..|]. exists h'. split; [|done].
    apply elem_of_app. by left.
  - intros e. rewrite Hedges. split.
    + intros [?|(h' & v & ? & ? & ? & ?)]; [by left|right].
      exists h', v. split_and!; [|done..]. apply elem_of_app. by left.
    + intros [?|(h' & v & [Hh'| ->%list_elem_of_singleton]%elem_of_app & Hv & Hd & ?)];
        [by left| |congruence].
      right. by exists h', v.
  - intros n. rewrite Hnodes. split.
    + intros [?|(h' & v & ? & ? & ? & ?)]; [by left|right].
      exists h', v. split_and!; [|done..]. apply elem_of_app. by left.
    + intros [?|(h' & v & [Hh'| ->%list_elem_of_singleton]%elem_of_app & Hv & Hd & ?)];
        [by left| |congruence].
      right. by exists h', v.
  - intros h' v [Hh'| ->%list_elem_of_singleton]%elem_of_app Hv Hd;
      [by apply Hqueued with h'|congruence].
  - intros h' [Hh'| ->%list_elem_of_singleton]%elem_of_app; [by apply Hres|].
    by exists full, false.
Qed.

(** A link into the domain of the root adds its edge, and its target to the
    frontier when the target is new. *)
Lemma links_seen_link url V G0 tv0 pre G1 tv1 h full :
  links_seen root url V G0 tv0 pre G1 tv1 →
  resolve url h = Some full → same_domain root full = Some true →
  links_seen root url V G0 tv0 (pre ++ [h])
    (Graph.add_edge url full (Graph.add_node full G1))
    (if bool_decide (full ∉ V) && bool_decide (full ∉ tv1)
     then tv1 ++ [full] else tv1).
Proof.
  intros [(new & Htv & Hnd & Hnew) Hedges Hnodes Hqueued Hres] Hfull Hdom.
  assert (∀ x, x ∈ new →
            (x ∉ V) ∧ (x ∉ tv0) ∧ same_domain root x = Some true ∧
            ∃ h', h' ∈ pre ++ [h] ∧ resolve url h' = Some x) as Hnew'.
  { intros x Hx. destruct (Hnew x Hx) as (? & ? & ? & h' & ? & ?).
    split_and!; [done..|]. exists h'. split; [|done].
    apply elem_of_app. by left. }
  unfold Graph.add_edge, Graph.add_node. constructor; state_fields.
  - destruct (bool_decide (full ∉ V)) eqn:HV; simpl;
      [|by exists new].
    destruct (bool_decide (full ∉ tv1)) eqn:Htv1; simpl;
      [|by exists new].
    apply bool_decide_eq_true in HV, Htv1.
    exists (new ++ [full]). subst tv1.
    rewrite app_assoc. split_and!; [done| |].
    + apply NoDup_app. split_and!; [done| |apply NoDup_singleton].
      intros x Hx Hx'. apply list_elem_of_singleton in Hx' as ->.
      apply Htv1. apply elem_of_app. by right.
    + intros x [Hx| ->%list_elem_of_singleton]%elem_of_app; [by apply Hnew'|].
      split_and!; [done| |done|].
      * intros Hin. apply Htv1. apply elem_of_app. by left.
      * exists h. split; [|done]. apply elem_of_app. right. left.
  - intros e. rewrite elem_of_union, elem_of_singleton, Hedges. split.
    + intros [->|[?|(h' & v & ? & ? & ? & ?)]]; [right|by left|right].
      * exists h, full. split_and!; [|done..]. apply elem_of_app. right. left.
      * exists h', v. split_and!; [|done..]. apply elem_of_app. by left.
    + intros [?|(h' & v & [Hh'| ->%list_elem_of_singleton]%elem_of_app & Hv & Hd & ->)].
      * right. by left.
      * right. right. by exists h', v.
      * left. congruence.
  - intros n. rewrite !elem_of_union, !elem_of_singleton, Hnodes. split.
    + intros [->|[->|[->|[?|(h' & v & ? & ? & ? & ?)]]]].
      * right. exists h, full. split_and!; [|done..|by left].
        apply elem_of_app. right. left.
      * right. exists h, full. split_and!; [|done..|by right].
        apply elem_of_app. right. left.
      * right. exists h, full. split_and!; [|done..|by right].
        apply elem_of_app. right. left.
      * by left.
      * right. exists h', v. split_and!; [|done..]. apply elem_of_app. by left.
    + intros [?|(h' & v & [Hh'| ->%list_elem_of_singleton]%elem_of_app & Hv & Hd & Hn)].
      * do 3 right. by left.
      * do 3 right. right. by exists h', v.
      * assert (v = full) as -> by congruence.
        destruct Hn as [->| ->]; [by left|right; by left].
  - intros h' v [Hh'| ->%list_elem_of_singleton]%elem_of_app Hv Hd.
    + destruct (Hqueued h' v Hh' Hv Hd) as [?|?]; [by left|right].
      destruct (_ && _); [|done]. apply elem_of_app. by left.
    + assert (v = full) as -> by congruence.
      destruct (decide (full ∈ V)) as [?|HV]; [by left|right].
      destruct (decide (full ∈ tv1)) as [?|Htv1].
      * destruct (_ && _); [|done]. apply elem_of_app. by left.
      * rewrite !bool_decide_eq_true_2 by done. cbn [andb].
        apply elem_of_app. right. left.
  - intros h' [Hh'| ->%list_elem_of_singleton]%elem_of_app; [by apply Hres|].
    by exists full, true.
Qed.

(** All links of a page: either every link was read, or the loop stopped at
    a link on which a URL function raised, with the links before it read. *)
Lemma visit_links_spec url V G0 tv0 hrefs :
  ∃ pre G' tv',
    links_seen root url V G0 tv0 pre G' tv' ∧
    ((visit_links root url V hrefs (G0, tv0) = Linked (G', tv') ∧ pre = hrefs) ∨
     (visit_links root url V hrefs (G0, tv0) = LinkRaise (G', tv') ∧
      ∃ h post, hrefs = pre ++ h :: post ∧ link_raises root url h)).
Proof.
  unfold visit_links.
  induction hrefs as [|h hrefs IH] using rev_ind.
  - exists [], G0, tv0. split; [apply links_seen_nil|]. by left.
  - rewrite fold_left_app. cbn [fold_left].
    destruct IH as (pre & G1 & tv1 & Hseen & [[-> ->]|[-> (h0 & post & -> & Hraise)]]).
    + cbn [visit_next]. rewrite visit_link_eq.
      destruct (resolve url h) as [full|] eqn:Hfull.
      * destruct (same_domain root full) as [[|]|] eqn:Hdom.
        -- eexists (hrefs ++ [h]), _, _. split; [by eapply links_seen_link|].
           by left.
        -- exists (hrefs ++ [h]), G1, tv1.
           split; [by eapply links_seen_other|]. by left.
        -- exists hrefs, G1, tv1. split; [done|]. right. split; [done|].
           exists h, []. split; [done|]. right. by exists full.
      * exists hrefs, G1, tv1. split; [done|]. right. split; [done|].
        exists h, []. split; [done|]. by left.
    + cbn [visit_next]. exists pre, G1, tv1. split; [done|]. right.
      split; [done|]. exists h0, (post ++ [h]). split; [|done].
      by rewrite <- app_assoc.
Qed.

(** The three ways a pass of the body reaches the next loop test. *)
Lemma loop_body_Continue st st' :
  loop_body root st = Continue st' →
  ∃ url rest, to_visit st = url :: rest ∧
    ((url ∈ visited st ∧
      st' = mkState rest (visited st) (G st) (log st)) ∨
     ((url ∉ visited st) ∧ requests_get url = None ∧
      st' = mkState rest ({[url]} ∪ visited st) (G st)
              (log st ++ [Get url; PrintFailed url])) ∨
     ((url ∉ visited st) ∧ ∃ content hrefs G' tv',
        requests_get url = Some content ∧ find_hrefs content = Some hrefs ∧
        visit_links root url ({[url]} ∪ visited st) hrefs
          (Graph.add_node url (G st), rest) = Linked (G', tv') ∧
        links_seen root url ({[url]} ∪ visited st)
          (Graph.add_node url (G st)) rest hrefs G' tv' ∧
        st' = mkState tv' ({[url]} ∪ visited st) G' (log st ++ [Get url]))).
Proof.
  unfold loop_body. destruct (to_visit st) as [|url rest]; [done|].
  intros H. exists url, rest. split; [done|].
  case_bool_decide as Hv.
  - left. split; [done|]. congruence.
  - right. destruct (requests_get url) as [content|] eqn:Hget.
    + right. split; [done|]. exists content.
      destruct (find_hrefs content) as [hrefs|] eqn:Hparse; [|done].
      exists hrefs.
      destruct (visit_links_spec url ({[url]} ∪ visited st)
                  (Graph.add_node url (G st)) rest hrefs)
        as (pre & G' & tv' & Hseen & [[Hr ->]|[Hr _]]);
        rewrite Hr in H; [|done].
      exists G', tv'. split_and!; [done..|]. congruence.
    + left. split_and!; [done..|]. congruence.
Qed.

(** The ways a pass of the body raises when the frontier is not empty: the
    page was fetched, and the parser rejected it or a URL function raised
    on one of its links. *)
Lemma loop_body_Raise st st' :
  loop_body root st = Raise st' → to_visit st ≠ [] →
  ∃ url rest content, to_visit st = url :: rest ∧ (url ∉ visited st) ∧
    requests_get url = Some content ∧
    visited st' = {[url]} ∪ visited st ∧ log st' = log st ++ [Get url] ∧
    ((find_hrefs content = None ∧ G st' = G st ∧ to_visit st' = rest) ∨
     (∃ hrefs pre h post,
        find_hrefs content = Some hrefs ∧ hrefs = pre ++ h :: post ∧
        link_raises root url h ∧
        links_seen root url ({[url]} ∪ visited st)
          (Graph.add_node url (G st)) rest pre (G st') (to_visit st'))).
Proof.
  unfold loop_body. destruct (to_visit st) as [|url rest]; [done|].
  intros H _. case_bool_decide as Hv; [done|].
  destruct (requests_get url) as [content|] eqn:Hget; [|done].
  exists url, rest, content.
  destruct (find_hrefs content) as [hrefs|] eqn:Hparse.
  - destruct (visit_links_spec url ({[url]} ∪ visited st)
                (Graph.add_node url (G st)) rest hrefs)
      as (pre & G' & tv' & Hseen & [[Hr ->]|[Hr (h & post & -> & Hraise)]]);
      rewrite Hr in H; [done|].
    injection H as <-. state_fields. split_and!; [done..|].
    right. by exists (pre ++ h :: post), pre, h, post.
  - injection H as <-. state_fields. split_and!; [done..|]. by left.
Qed.

Lemma loop_cond_true st :
  loop_cond max_pages st = true ↔
  to_visit st ≠ [] ∧ Z.of_nat (size (visited st)) < max_pages.
Proof.
  unfold loop_cond. rewrite andb_true_iff, bool_decide_eq_true.
  by rewrite Z.ltb_lt.
Qed.

Lemma loop_cond_false st :
  loop_cond max_pages st = false ↔
  to_visit st = [] ∨ max_pages ≤ Z.of_nat (size (visited st)).
Proof.
  unfold loop_cond. rewrite andb_false_iff, bool_decide_eq_false.
  rewrite Z.ltb_ge. split; (intros [H|H]; [left|by right]).
  - destruct (to_visit st); [done|]. by destruct H.
  - rewrite H. by intros [].
Qed.

Lemma size_add_fresh (url : string) (V : gset string) :
  url ∉ V → size ({[url]} ∪ V) = S (size V).
Proof.
  intros H. rewrite size_union by set_solver. by rewrite size_singleton.
Qed.

Lemma crawl_inv_init : crawl_inv root max_pages (init root).
Proof.
  unfold init, Graph.empty. constructor; state_fields.
  - apply NoDup_singleton.
  - set_solver.
  - intros u [->%list_elem_of_singleton|Hu]; [|set_solver].
    split; [by left|constructor].
  - right. set_solver.
  - set_solver.
  - set_solver.
  - intros n. split; [set_solver|]. intros [[? _]|[u ?]]; set_solver.
  - rewrite size_empty. lia.
  - intros u. split; [by intros ?%elem_of_nil|set_solver].
  - intros u. split; [by intros ?%elem_of_nil|set_solver].
  - constructor.
  - set_solver.
Qed.

(** A failed fetch keeps the invariant. *)
Lemma crawl_inv_failed st url rest :
  crawl_inv root max_pages st →
  Z.of_nat (size (visited st)) < max_pages →
  to_visit st = url :: rest → requests_get url = None →
  crawl_inv root max_pages
    (mkState rest ({[url]} ∪ visited st) (G st)
       (log st ++ [Get url; PrintFailed url])).
Proof.
  intros [Hnd Hfresh Hdom Hroot Hclosed Hedges Hnodes Hbudget Hget Hfailed
          Hlog Hres] Hlt Htv Hnone.
  rewrite Htv in *. apply NoDup_cons in Hnd as [Hurl Hnd].
  assert (url ∉ visited st) as Hv by (apply Hfresh; left).
  constructor; state_fields.
  - done.
  - intros u Hu. apply not_elem_of_union. split.
    + apply not_elem_of_singleton. by intros ->.
    + apply Hfresh. by right.
  - intros u [Hu|[->%elem_of_singleton|Hu]%elem_of_union]; apply Hdom.
    + left. by right.
    + left. left.
    + by right.
  - destruct Hroot as [?|[->|?]%elem_of_cons]; set_solver.
  - intros u v [->%elem_of_singleton|Hu]%elem_of_union Hl.
    + destruct Hl as (c & hs & h & Hc & _). congruence.
    + destruct (Hclosed u v Hu Hl) as [?|[->|?]%elem_of_cons]; set_solver.
  - intros u v. rewrite Hedges. split; [set_solver|].
    intros [[->%elem_of_singleton|Hu]%elem_of_union Hl]; [|done].
    destruct Hl as (c & hs & h & Hc & _). congruence.
  - intros n. rewrite Hnodes. split.
    + intros [[? ?]|?]; [left|by right]. set_solver.
    + intros [[[->%elem_of_singleton|?]%elem_of_union Hf]|?];
        [|by left|by right].
      destruct Hf as (c & hs & Hc & _). congruence.
  - rewrite size_add_fresh by done. lia.
  - intros u. rewrite elem_of_app, Hget. split.
    + intros [?|[[= ->]|[?|?%elem_of_nil]%elem_of_cons]%elem_of_cons];
        [set_solver|set_solver|done|done].
    + intros [->%elem_of_singleton|?]%elem_of_union; [right; left|by left].
  - intros u. rewrite elem_of_app, Hfailed. split.
    + intros [[? ?]|[?|[[= ->]|?%elem_of_nil]%elem_of_cons]%elem_of_cons];
        [set_solver|done|set_solver|done].
    + intros [[->%elem_of_singleton|?]%elem_of_union ?];
        [right; right; left|by left].
  - apply NoDup_app. split_and!; [done| |].
    + intros e He [->|[->|?%elem_of_nil]%elem_of_cons]%elem_of_cons; [|  |done].
      * by apply Hget in He.
      * by apply Hfailed in He as [? _].
    + apply NoDup_cons. split; [|apply NoDup_singleton].
      by intros [=]%list_elem_of_singleton.
  - intros u c hs h [->%elem_of_singleton|Hu]%elem_of_union Hc;
      [congruence|by apply (Hres u c hs h)].
Qed.

(** A fetched and parsed page whose links were all read keeps the
    invariant. *)
Lemma crawl_inv_parsed st url rest content hrefs G' tv' :
  crawl_inv root max_pages st →
  Z.of_nat (size (visited st)) < max_pages →
  to_visit st = url :: rest →
  requests_get url = Some content → find_hrefs content = Some hrefs →
  links_seen root url ({[url]} ∪ visited st)
    (Graph.add_node url (G st)) rest hrefs G' tv' →
  crawl_inv root max_pages
    (mkState tv' ({[url]} ∪ visited st) G' (log st ++ [Get url])).
Proof.
  intros [Hnd Hfresh Hdom Hroot Hclosed Hedges Hnodes Hbudget Hget Hfailed
          Hlog Hres] Hlt Htv Hc Hp
         [(new & Hr & Hnew_nd & Hnew) Hre Hrn Hdone Hseen].
  rewrite Htv in *. apply NoDup_cons in Hnd as [Hurl Hnd].
  assert (url ∉ visited st) as Hv by (apply Hfresh; left).
  unfold Graph.add_node in Hre, Hrn. state_fields.
  assert (∀ h v, h ∈ hrefs → resolve url h = Some v →
                 same_domain root v = Some true →
                 links_to root url v) as Hlink.
  { intros h v Hh Hhv Hd. by exists content, hrefs, h. }
  assert (∀ v, links_to root url v →
               ∃ h, h ∈ hrefs ∧ resolve url h = Some v ∧
                    same_domain root v = Some true) as Hlink'.
  { intros v (c & hs & h & Hc' & Hp' & Hh & Hhv & Hd).
    rewrite Hc in Hc'. injection Hc' as <-.
    rewrite Hp in Hp'. injection Hp' as <-. by exists h. }
  constructor; state_fields.
  - rewrite Hr. apply NoDup_app. split_and!; [done| |done].
    intros x Hx Hx'. by destruct (Hnew x Hx') as (_ & ? & _).
  - rewrite Hr. intros u [Hu|Hu]%elem_of_app.
    + apply not_elem_of_union. split.
      * apply not_elem_of_singleton. by intros ->.
      * apply Hfresh. by right.
    + by destruct (Hnew u Hu) as (? & _).
  - rewrite Hr.
    intros u [[Hu|Hu]%elem_of_app|[->%elem_of_singleton|Hu]%elem_of_union].
    + apply Hdom. left. by right.
    + destruct (Hnew u Hu) as (_ & _ & Hd & h & Hh & Hhu).
      split; [by right|]. apply reach_link with url.
      * apply Hdom. left. left.
      * by apply Hlink with h.
    + apply Hdom. left. left.
    + apply Hdom. by right.
  - rewrite Hr. destruct Hroot as [?|[->|?]%elem_of_cons]; set_solver.
  - intros u v [->%elem_of_singleton|Hu]%elem_of_union Hl.
    + destruct (Hlink' v Hl) as (h & Hh & Hhv & Hd). by apply Hdone with h.
    + rewrite Hr.
      destruct (Hclosed u v Hu Hl) as [?|[->|?]%elem_of_cons]; set_solver.
  - intros u v. rewrite Hre, Hedges. split.
    + intros [[? ?]|(h & w & Hh & Hhw & Hd & [= -> ->])].
      * split; [set_solver|done].
      * split; [set_solver|by apply Hlink with h].
    + intros [[->%elem_of_singleton|Hu]%elem_of_union Hl].
      * right. destruct (Hlink' v Hl) as (h & Hh & Hhv & Hd). by exists h, v.
      * by left.
  - intros n. rewrite Hrn, elem_of_union, elem_of_singleton, Hnodes. split.
    + intros [[->|[[? ?]|[u Hu]]]|(h & w & Hh & Hhw & Hd & [->| ->])].
      * left. split; [set_solver|by exists content, hrefs].
      * left. split; [set_solver|done].
      * right. exists u. apply Hre. by left.
      * left. split; [set_solver|by exists content, hrefs].
      * right. exists url. apply Hre. right. by exists h, w.
    + intros [[[->%elem_of_singleton|?]%elem_of_union Hf]|[u Hu]].
      * left. by left.
      * left. right. by left.
      * apply Hre in Hu as [Hu|(h & w & Hh & Hhw & Hd & [= -> ->])].
        -- left. right. right. by exists u.
        -- right. exists h, w. split_and!; [done..|by right].
  - rewrite size_add_fresh by done. lia.
  - intros u. rewrite elem_of_app, Hget. split.
    + intros [?|[= ->]%list_elem_of_singleton]; set_solver.
    + intros [->%elem_of_singleton|?]%elem_of_union; [right|by left].
      by apply list_elem_of_singleton.
  - intros u. rewrite elem_of_app, Hfailed. split.
    + intros [[? ?]|[=]%list_elem_of_singleton]. set_solver.
    + intros [[->%elem_of_singleton|?]%elem_of_union ?]; [congruence|by left].
  - apply NoDup_app. split_and!; [done| |apply NoDup_singleton].
    intros e He ->%list_elem_of_singleton. by apply Hget in He.
  - intros u c hs h [->%elem_of_singleton|Hu]%elem_of_union Hc' Hp' Hh.
    + rewrite Hc in Hc'. injection Hc' as <-.
      rewrite Hp in Hp'. injection Hp' as <-. by apply Hseen.
    + by apply (Hres u c hs h).
Qed.

(** Every pass of the body that reaches the next test keeps the invariant. *)
Lemma crawl_inv_step st st' :
  crawl_inv root max_pages st →
  loop_cond max_pages st = true →
  loop_body root st = Continue st' →
  crawl_inv root max_pages st'.
Proof.
  intros Hinv [_ Hlt]%loop_cond_true Hbody.
  destruct (loop_body_Continue st st' Hbody)
    as (url & rest & Htv &
        [[Hv ->]|[(Hv & Hnone & ->)
                 |(Hv & c & hs & G' & tv' & Hc & Hp & _ & Hseen & ->)]]).
  - exfalso. apply (inv_fresh _ _ _ Hinv url); [|done]. rewrite Htv. left.
  - by apply crawl_inv_failed.
  - by apply crawl_inv_parsed with rest c hs.
Qed.

Lemma loop_head_inv st : loop_head root max_pages st → crawl_inv root max_pages st.
Proof.
  induction 1 as [|st st' _ IH Hcond Hbody].
  - apply crawl_inv_init.
  - by apply crawl_inv_step with st.
Qed.

(** Under the invariant a pass that continues visits one new URL. *)
Lemma step_visits_one st st' :
  crawl_inv root max_pages st →
  loop_body root st = Continue st' →
  size (visited st') = S (size (visited st)).
Proof.
  intros Hinv Hbody.
  destruct (loop_body_Continue st st' Hbody)
    as (url & rest & Htv &
        [[Hv ->]|[(Hv & Hnone & ->)
                 |(Hv & c & hs & G' & tv' & _ & _ & _ & _ & ->)]]);
    state_fields.
  - exfalso. apply (inv_fresh _ _ _ Hinv url); [|done]. rewrite Htv. left.
  - by apply size_add_fresh.
  - by apply size_add_fresh.
Qed.

(** More passes than needed do not change the result. *)
Lemma crawl_loop_mono fuel fuel' st o :
  crawl_loop root max_pages fuel st = Some o → (fuel ≤ fuel')%nat →
  crawl_loop root max_pages fuel' st = Some o.
Proof.
  revert fuel' st. induction fuel as [|fuel IH]; intros fuel' st; simpl.
  - destruct (loop_cond max_pages st) eqn:Hcond; [done|].
    intros H _. destruct fuel'; simpl; by rewrite Hcond.
  - destruct (loop_cond max_pages st) eqn:Hcond.
    + intros H Hle. destruct fuel' as [|fuel']; [lia|]. simpl. rewrite Hcond.
      destruct (loop_body root st); [|done]. apply IH; [done|lia].
    + intros H _. destruct fuel'; simpl; by rewrite Hcond.
Qed.

(** The loop ends: as many passes as the budget has pages left suffice. *)
Lemma crawl_loop_total fuel st :
  crawl_inv root max_pages st →
  (Z.to_nat (max_pages - Z.of_nat (size (visited st))) ≤ fuel)%nat →
  ∃ o, crawl_loop root max_pages fuel st = Some o.
Proof.
  revert st. induction fuel as [|fuel IH]; intros st Hinv Hfuel; simpl.
  - destruct (loop_cond max_pages st) eqn:Hcond; [|by eexists].
    apply loop_cond_true in Hcond as [_ Hlt]. lia.
  - destruct (loop_cond max_pages st) eqn:Hcond; [|by eexists].
    destruct (loop_body root st) as [st'|st'] eqn:Hbody; [|by eexists].
    apply IH.
    + by apply crawl_inv_step with st.
    + rewrite (step_visits_one st st') by done. lia.
Qed.

(** The loop itself never ends with the outcome of the lines before it. *)
Lemma crawl_loop_not_before fuel st :
  crawl_loop root max_pages fuel st ≠ Some RaisedBefore.
Proof.
  revert st. induction fuel as [|fuel IH]; intros st; simpl.
  - by destruct (loop_cond max_pages st).
  - destruct (loop_cond max_pages st); [|done].
    destruct (loop_body root st); [apply IH|done].
Qed.

(** Where the loop returns, the condition was tested and found false. *)
Lemma crawl_loop_Returned fuel st st' :
  loop_head root max_pages st →
  crawl_loop root max_pages fuel st = Some (Returned st') →
  loop_head root max_pages st' ∧ loop_cond max_pages st' = false.
Proof.
  revert st. induction fuel as [|fuel IH]; intros st Hhead; simpl.
  - destruct (loop_cond max_pages st) eqn:Hcond; [done|]. by intros [= <-].
  - destruct (loop_cond max_pages st) eqn:Hcond; [|by intros [= <-]].
    destruct (loop_body root st) as [st1|st1] eqn:Hbody; [|done].
    apply IH. by apply head_next with st.
Qed.

(** Where the loop raises, the exception left a pass of the body. *)
Lemma crawl_loop_Raised fuel st st' :
  loop_head root max_pages st →
  crawl_loop root max_pages fuel st = Some (Raised st') →
  ∃ st0, loop_head root max_pages st0 ∧ loop_cond max_pages st0 = true ∧
         loop_body root st0 = Raise st'.
Proof.
  revert st. induction fuel as [|fuel IH]; intros st Hhead; simpl.
  - by destruct (loop_cond max_pages st).
  - destruct (loop_cond max_pages st) eqn:Hcond; [|done].
    destruct (loop_body root st) as [st1|st1] eqn:Hbody.
    + apply IH. by apply head_next with st.
    + intros [= <-]. by exists st.
Qed.

(** The visited set never exceeds a non-negative budget, also where an
    exception leaves the body. *)
Lemma crawl_point_budget st :
  0 ≤ max_pages → crawl_point root max_pages st →
  Z.of_nat (size (visited st)) ≤ max_pages.
Proof.
  intros Hpos [st0 Hhead|st0 st1 Hhead Hcond Hbody].
  - pose proof (inv_budget _ _ _ (loop_head_inv _ Hhead)). lia.
  - apply loop_cond_true in Hcond as [Hne Hlt].
    destruct (loop_body_Raise st0 st1 Hbody Hne)
      as (url & rest & c & Htv & Hv & _ & -> & _).
    rewrite size_add_fresh by done. lia.
Qed.

(** A visited set that holds the root and is closed under links holds every
    reachable page. *)
Lemma reachable_visited st u :
  crawl_inv root max_pages st → to_visit st = [] →
  reachable root u → u ∈ visited st.
Proof.
  intros Hinv Htv. induction 1 as [|u v _ IH Hl].
  - destruct (inv_root _ _ _ Hinv) as [?|Hr]; [done|].
    rewrite Htv in Hr. by apply elem_of_nil in Hr.
  - destruct (inv_closed _ _ _ Hinv u v IH Hl) as [?|Hv]; [done|].
    rewrite Htv in Hv. by apply elem_of_nil in Hv.
Qed.

Lemma NoDup_length_le_size (l : list string) (X : gset string) :
  NoDup l → (∀ u, u ∈ l → u ∈ X) → (List.length l ≤ size X)%nat.
Proof.
  intros Hnd Hin. unfold size, set_size. simpl.
  apply submseteq_length, NoDup_submseteq; [done|].
  intros u Hu. apply elem_of_elements. by apply Hin.
Qed.

End CrawlFacts.

(** ** The page budget *)

Section Claims.
Context {W : Web}.

(** What [crawl] did before a loop that ended. *)
Lemma crawl_inv_loop (root : string) (max_pages : Z) (fuel : nat) (o : outcome) :
  crawl root max_pages fuel = Some o → o ≠ RaisedBefore →
  ∃ r, normalize root = Some r ∧ is_Some (netloc r) ∧
       crawl_loop r max_pages fuel (init r) = Some o.
Proof.
  unfold crawl. destruct (normalize root) as [r|]; [|by intros [= <-]].
  destruct (netloc r) as [d|] eqn:Hd; [|by intros [= <-]].
  intros Hrun _. exists r. split_and!; [done|by eexists|done].
Qed.

Lemma crawl_loop_of_crawl (root r : string) (max_pages : Z) (fuel : nat) :
  normalize root = Some r → is_Some (netloc r) →
  crawl root max_pages fuel = crawl_loop r max_pages fuel (init r).
Proof. intros Hr [d Hd]. unfold crawl. by rewrite Hr, Hd. Qed.

(** C2: with a budget [max_pages ≥ 0], the visited set has at most
    [max_pages] URLs at every point of [crawl] (at each test of the loop
    condition, hence at the return, and where an exception leaves the body);
    and when [crawl] returns while at least [max_pages] distinct same-domain
    pages are reachable from the root, exactly [max_pages] URLs are
    visited. *)
Theorem crawl_respects_budget (root : string) (max_pages : Z)
    (Hpos : 0 ≤ max_pages) :
  (∀ r st, normalize root = Some r → crawl_point r max_pages st →
           Z.of_nat (size (visited st)) ≤ max_pages) ∧
  (∀ fuel st l r,
     crawl root max_pages fuel = Some (Returned st) →
     normalize root = Some r →
     NoDup l → (∀ u, u ∈ l → reachable r u) →
     max_pages ≤ Z.of_nat (List.length l) →
     Z.of_nat (size (visited st)) = max_pages).
Proof.
  split.
  - intros r st _. by apply crawl_point_budget.
  - intros fuel st l r Hrun Hr Hnd Hreach Hlen.
    apply crawl_inv_loop in Hrun as (r' & Hr' & _ & Hrun); [|done].
    assert (r' = r) as -> by congruence.
    apply crawl_loop_Returned in Hrun as [Hhead Hcond]; [|constructor].
    pose proof (loop_head_inv _ _ _ Hhead) as Hinv.
    pose proof (inv_budget _ _ _ Hinv) as Hle.
    apply loop_cond_false in Hcond as [Hempty|Hfull]; [|lia].
    assert (List.length l ≤ size (visited st))%nat; [|lia].
    apply NoDup_length_le_size; [done|].
    intros u Hu. eapply reachable_visited; eauto.
Qed.

(** C7, as the code has it: from a root that [normalize] and [urlparse]
    accept, when on the pages reachable from it the parser never raises and
    no URL function raises on a link, the loop of [crawl] ends after at most
    [max_pages] passes of its body, and it ends by returning, in a state
    where the frontier is empty or the visited count has reached
    [max_pages]. *)
Theorem crawl_terminates (root r : string) (max_pages : Z)
    (Hroot : normalize root = Some r)
    (Hnet : is_Some (netloc r))
    (Hparse : ∀ u content,
       reachable r u → requests_get u = Some content →
       is_Some (find_hrefs content))
    (Hlinks : ∀ u content hrefs href,
       reachable r u → requests_get u = Some content →
       find_hrefs content = Some hrefs → href ∈ hrefs →
       ¬ link_raises r u href) :
  ∃ st,
    crawl root max_pages (Z.to_nat max_pages) = Some (Returned st) ∧
    (∀ fuel, (Z.to_nat max_pages ≤ fuel)%nat →
             crawl root max_pages fuel = Some (Returned st)) ∧
    (to_visit st = [] ∨ max_pages ≤ Z.of_nat (size (visited st))).
Proof.
  assert (∀ fuel, crawl root max_pages fuel
                  = crawl_loop r max_pages fuel (init r)) as Hcrawl
    by (intros fuel; by apply crawl_loop_of_crawl).
  destruct (crawl_loop_total r max_pages (Z.to_nat max_pages) (init r))
    as [[st|st|] Hrun].
  - apply crawl_inv_init.
  - unfold init. state_fields. rewrite size_empty. lia.
  - exists st. split_and!.
    + by rewrite Hcrawl.
    + intros fuel Hfuel. rewrite Hcrawl.
      by apply crawl_loop_mono with (Z.to_nat max_pages).
    + apply crawl_loop_Returned in Hrun as [_ Hcond]; [|constructor].
      by apply loop_cond_false.
  - exfalso.
    apply crawl_loop_Raised in Hrun as (st0 & Hhead & Hcond & Hbody);
      [|constructor].
    apply loop_cond_true in Hcond as [Hne _].
    destruct (loop_body_Raise _ _ _ Hbody Hne)
      as (url & rest & c & Htv & _ & Hc & _ & _ & Hwhy).
    assert (reachable r url) as Hreach.
    { apply (inv_domain _ _ _ (loop_head_inv _ _ _ Hhead)).
      left. rewrite Htv. left. }
    destruct Hwhy as [(Hnone & _)|(hs & pre & h & post & Hp & -> & Hraise & _)].
    + destruct (Hparse url c Hreach Hc) as [hs Hhs]. congruence.
    + apply (Hlinks url c _ h Hreach Hc Hp); [|done].
      apply elem_of_app. right. left.
  - by apply crawl_loop_not_before in Hrun.
Qed.

(** C9: whenever the loop condition is tested, the frontier has no duplicate
    and no visited URL in it; hence the test [url in visited] on the dequeued
    URL never succeeds. *)
Theorem frontier_never_holds_visited (root : string) (max_pages : Z)
    (st : crawl_state) (Hhead : loop_head root max_pages st) :
  NoDup (to_visit st) ∧ (∀ u, u ∈ to_visit st → u ∉ visited st) ∧
  skips st = false.
Proof.
  pose proof (loop_head_inv _ _ _ Hhead) as Hinv.
  split_and!.
  - apply (inv_nodup _ _ _ Hinv).
  - apply (inv_fresh _ _ _ Hinv).
  - unfold skips. destruct (to_visit st) as [|url rest] eqn:Htv; [done|].
    apply bool_decide_eq_false. apply (inv_fresh _ _ _ Hinv). rewrite Htv. left.
Qed.

(** C4, as the code has it: when the HTTP fetch of the dequeued URL raises,
    the pass of the loop body ends normally at the next loop test with the
    URL added to the visited set, the graph unchanged and the rest of the
    frontier pending.  The URL is never fetched again: no URL is fetched
    twice and a visited URL is never in the frontier.  It never gets an
    outgoing edge, and it is a node only where another page links to it. *)
Theorem fetch_failure_is_skipped (root : string) (max_pages : Z)
    (st : crawl_state) (url : string) (rest : list string)
    (Hhead : loop_head root max_pages st)
    (Htv : to_visit st = url :: rest)
    (Hfail : requests_get url = None) :
  loop_body root st =
    Continue (mkState rest ({[url]} ∪ visited st) (G st)
                (log st ++ [Get url; PrintFailed url])) ∧
  (∀ st', loop_head root max_pages st' →
     NoDup (log st') ∧
     (url ∈ visited st' → url ∉ to_visit st') ∧
     (∀ v, (url, v) ∉ edges (G st')) ∧
     (url ∈ nodes (G st') → ∃ u, (u, url) ∈ edges (G st'))).
Proof.
  split.
  - pose proof (loop_head_inv _ _ _ Hhead) as Hinv.
    unfold loop_body. rewrite Htv, Hfail.
    rewrite bool_decide_eq_false_2; [done|].
    apply (inv_fresh _ _ _ Hinv). rewrite Htv. left.
  - intros st' Hhead'. pose proof (loop_head_inv _ _ _ Hhead') as Hinv.
    split_and!.
    + apply (inv_log _ _ _ Hinv).
    + intros Hv Hf. by apply (inv_fresh _ _ _ Hinv url).
    + intros v [_ (c & hs & h & Hc & _)]%(inv_edges _ _ _ Hinv). congruence.
    + intros [[_ (c & hs & Hc & _)]|?]%(inv_nodes _ _ _ Hinv); [congruence|done].
Qed.


End Claims.

(** ** Ranking and the command line *)

Section RankClaims.
Context {W : Web} {R : Ranker}.

(** C5, as the code has it: a budget [max_pages ≤ 0] is not rejected.  For a
    root that [normalize] and [urlparse] accept, the loop body is not run at
    all (no pass is needed, so nothing is fetched), [crawl] returns the
    empty graph, and [main] prints the counts and the notice of the empty
    graph and ends normally. *)
Theorem nonpositive_budget_crawls_nothing (root r : string) (max_pages : Z)
    (output : string) (Hnp : max_pages ≤ 0)
    (Hroot : normalize root = Some r) (Hnet : is_Some (netloc r)) :
  ∀ fuel,
    crawl root max_pages fuel = Some (Returned (init r)) ∧
    G (init r) = Graph.empty ∧
    main root max_pages output fuel = Some (Done [PrintCrawled 0 0; PrintEmpty]).
Proof.
  intros fuel.
  assert (crawl root max_pages fuel = Some (Returned (init r))) as Hrun.
  { rewrite (crawl_loop_of_crawl root r) by done.
    assert (loop_cond max_pages (init r) = false) as Hcond.
    { apply loop_cond_false. right. unfold init. state_fields.
      rewrite size_empty. lia. }
    destruct fuel; simpl; by rewrite Hcond. }
  split_and!; [done|done|].
  unfold main. rewrite Hrun. unfold init, Graph.empty. state_fields.
  by rewrite !size_empty.
Qed.

(** C8: on a graph without nodes [compute_and_visualize] prints its notice
    and returns; whatever the ranker would do, it is not called, and no
    weight is written. *)
Theorem empty_graph_skips_pagerank (G : DiGraph) (out_pdf : string)
    (Hempty : Graph.len G = 0%nat) :
  compute_and_visualize G out_pdf = Done [PrintEmpty].
Proof.
  unfold compute_and_visualize. by rewrite bool_decide_eq_true_2.
Qed.


End RankClaims.

(** ** The claims on the small site *)

(** The pages reachable from the home page of the small site. *)
Lemma site_reachable (u : string) :
  reachable (W:=Site.web) Site.home u →
  u ∈ ["http://a.com"; "http://a.com/about"; "http://a.com/contact";
       "http://a.com/missing"].
Proof.
  induction 1 as [|u v _ IH (c & hs & h & Hc & Hp & Hh & Hv & Hd)]; [left|].
  repeat (apply elem_of_cons in IH as [->|IH]);
    [..|by apply elem_of_nil in IH];
    vm_compute in Hc; try discriminate; injection Hc as <-;
    vm_compute in Hp; injection Hp as <-;
    repeat (apply elem_of_cons in Hh as [->|Hh]);
    try (by apply elem_of_nil in Hh);
    vm_compute in Hv; injection Hv as <-;
    vm_compute in Hd; try discriminate;
    repeat first [by left | right].
Qed.

(** The budget on the small site: with a budget of two pages and four
    reachable ones, the crawl of the home page visits exactly two. *)
Lemma crawl_respects_budget_witness :
  0 ≤ 2 ∧
  crawl (W:=Site.web) "http://a.com/" 2 2 = Some (Returned Site.budgeted) ∧
  Z.of_nat (size (visited Site.budgeted)) = 2.
Proof.
  split; [lia|].
  assert (crawl (W:=Site.web) "http://a.com/" 2 2
          = Some (Returned Site.budgeted)) as Hrun by (vm_compute; reflexivity).
  split; [exact Hrun|].
  apply (proj2 (crawl_respects_budget (W:=Site.web) "http://a.com/" 2 ltac:(lia))
           2%nat Site.budgeted ["http://a.com"; "http://a.com/about"]
           "http://a.com" Hrun).
  - reflexivity.
  - apply NoDup_cons. split; [|apply NoDup_singleton].
    by intros [=]%list_elem_of_singleton.
  - intros u Hu.
    assert (reachable (W:=Site.web) "http://a.com" "http://a.com") as Hhome
      by constructor.
    apply elem_of_cons in Hu as [->|Hu]; [exact Hhome|].
    apply list_elem_of_singleton in Hu as ->.
    apply reach_link with "http://a.com"; [exact Hhome|].
    exists Site.home_html,
      ["http://a.com/about"; "http://a.com/contact/"; "#top"; "http://b.org/x"],
      "http://a.com/about".
    split_and!; [reflexivity|reflexivity|left|reflexivity|reflexivity].
  - simpl. lia.
Defined.

(** C7, as stated, fails: a page whose second link is rejected by [urljoin]
    is fetched and parsed, and the exception leaves [crawl] while the
    frontier is not empty and one page of a budget of ten is visited. *)
Lemma malformed_link_leaves_crawl :
  requests_get (Web:=Site.web) "http://d.org" = Some Site.broken_link_html ∧
  find_hrefs (Web:=Site.web) Site.broken_link_html
    = Some ["http://d.org/fine"; "http://[bad"] ∧
  urljoin (Web:=Site.web) "http://d.org" "http://[bad" = None ∧
  ∃ st, crawl (W:=Site.web) "http://d.org" 10 10 = Some (Raised st) ∧
        to_visit st = ["http://d.org/fine"] ∧
        Z.of_nat (size (visited st)) = 1.
Proof.
  split_and!; [reflexivity..|].
  eexists. split_and!; [vm_compute; reflexivity|reflexivity|reflexivity].
Qed.

(** Termination on the small site, where every reachable page that is
    fetched is parsed and every link on it is resolved. *)
Lemma crawl_terminates_witness :
  normalize (W:=Site.web) "http://a.com/" = Some Site.home ∧
  ∃ st,
    crawl (W:=Site.web) "http://a.com/" 10 (Z.to_nat 10) = Some (Returned st) ∧
    (∀ fuel, (Z.to_nat 10 ≤ fuel)%nat →
             crawl (W:=Site.web) "http://a.com/" 10 fuel = Some (Returned st)) ∧
    (to_visit st = [] ∨ 10 ≤ Z.of_nat (size (visited st))).
Proof.
  split; [reflexivity|].
  apply (crawl_terminates (W:=Site.web) "http://a.com/" Site.home 10).
  - reflexivity.
  - by eexists.
  - intros u c Hu%site_reachable Hc.
    repeat (apply elem_of_cons in Hu as [->|Hu]);
      [..|by apply elem_of_nil in Hu];
      vm_compute in Hc; try discriminate; injection Hc as <-; by eexists.
  - intros u c hs h Hu%site_reachable Hc Hp Hh.
    repeat (apply elem_of_cons in Hu as [->|Hu]);
      [..|by apply elem_of_nil in Hu];
      vm_compute in Hc; try discriminate; injection Hc as <-;
      vm_compute in Hp; injection Hp as <-;
      repeat (apply elem_of_cons in Hh as [->|Hh]);
      try (by apply elem_of_nil in Hh);
      (intros [Hnone|(full & Hfull & Hdom)];
       [vm_compute in Hnone; discriminate
       |vm_compute in Hfull; injection Hfull as <-;
        vm_compute in Hdom; discriminate]).
Defined.

(** The frontier after the home page of the small site has been read. *)
Lemma frontier_never_holds_visited_witness :
  to_visit Site.after_home = ["http://a.com/about"; "http://a.com/contact"] ∧
  NoDup (to_visit Site.after_home) ∧
  (∀ u, u ∈ to_visit Site.after_home → u ∉ visited Site.after_home) ∧
  skips Site.after_home = false.
Proof.
  split; [reflexivity|].
  apply (frontier_never_holds_visited (W:=Site.web) Site.home 5).
  apply head_next with (init Site.home).
  - constructor.
  - reflexivity.
  - vm_compute. reflexivity.
Defined.

(** A crawl whose root cannot be fetched: the failure is skipped. *)
Lemma fetch_failure_is_skipped_witness :
  loop_body (W:=Site.web) "http://a.com/missing" (init "http://a.com/missing") =
    Continue (mkState [] ({["http://a.com/missing"]} ∪ ∅) Graph.empty
                ([] ++ [Get "http://a.com/missing";
                        PrintFailed "http://a.com/missing"])) ∧
  (∀ st', loop_head (W:=Site.web) "http://a.com/missing" 5 st' →
     NoDup (log st') ∧
     ("http://a.com/missing" ∈ visited st' →
      "http://a.com/missing" ∉ to_visit st') ∧
     (∀ v, ("http://a.com/missing", v) ∉ edges (G st')) ∧
     ("http://a.com/missing" ∈ nodes (G st') →
      ∃ u, (u, "http://a.com/missing") ∈ edges (G st'))).
Proof.
  apply (fetch_failure_is_skipped (W:=Site.web) "http://a.com/missing" 5
           (init "http://a.com/missing") "http://a.com/missing" []).
  - constructor.
  - reflexivity.
  - reflexivity.
Defined.

(** C4, as stated, fails where the error comes from the parser: the page at
    the root is fetched, the parser rejects its markup, and the exception
    leaves [crawl]; the loop does not go on to the next URL. *)
Lemma parse_failure_leaves_crawl :
  requests_get (Web:=Site.web) "http://c.net" = Some Site.rejected_html ∧
  find_hrefs (Web:=Site.web) Site.rejected_html = None ∧
  crawl (W:=Site.web) "http://c.net" 10 10 =
    Some (Raised (mkState [] ({["http://c.net"]} ∪ ∅) Graph.empty
                    [Get "http://c.net"])).
Proof. split_and!; reflexivity. Qed.

(** C5, as stated, fails: budgets of zero and of minus three pages are
    accepted, [crawl] returns the empty graph and [main] ends normally. *)
Lemma nonpositive_budget_is_not_rejected :
  crawl (W:=Site.web) "http://a.com/" 0 0 = Some (Returned (init "http://a.com")) ∧
  crawl (W:=Site.web) "http://a.com/" (-3) 0 = Some (Returned (init "http://a.com")) ∧
  main (W:=Site.web) (R:=Site.ranker) "http://a.com/" 0 "graph.pdf" 0 =
    Some (Done [PrintCrawled 0 0; PrintEmpty]).
Proof. split_and!; reflexivity. Qed.

(** A budget of zero pages on the small site. *)
Lemma nonpositive_budget_crawls_nothing_witness :
  0 ≤ 0 ∧
  normalize (W:=Site.web) "http://a.com/" = Some "http://a.com" ∧
  netloc (Web:=Site.web) "http://a.com" = Some "a.com" ∧
  ∀ fuel,
    crawl (W:=Site.web) "http://a.com/" 0 fuel =
      Some (Returned (init "http://a.com")) ∧
    G (init "http://a.com") = Graph.empty ∧
    main (W:=Site.web) (R:=Site.ranker) "http://a.com/" 0 "graph.pdf" fuel =
      Some (Done [PrintCrawled 0 0; PrintEmpty]).
Proof.
  split; [lia|]. split; [reflexivity|]. split; [reflexivity|].
  apply (nonpositive_budget_crawls_nothing (W:=Site.web) (R:=Site.ranker)
           "http://a.com/" "http://a.com" 0 "graph.pdf").
  - lia.
  - reflexivity.
  - by eexists.
Defined.


(** The empty graph with a ranker that raises on every graph. *)
Lemma empty_graph_skips_pagerank_witness :
  Graph.len Graph.empty = 0%nat ∧
  compute_and_visualize (R:=Site.failing) Graph.empty "graph.pdf"
    = Done [PrintEmpty].
Proof.
  split; [reflexivity|].
  apply (empty_graph_skips_pagerank (R:=Site.failing) Graph.empty "graph.pdf").
  reflexivity.
Defined.


(** On the small site the graph after the home page is ranked, weighted and
    saved, and the self-loop of the home page has the score of the home
    page. *)
Example self_link_is_weighted :
  compute_and_visualize (R:=Site.ranker) (G Site.after_home) "graph.pdf" =
    Done [Pagerank (G Site.after_home);
          Savefig (G Site.after_home)
            (edge_weights (R:=Site.ranker) Site.home_scores (G Site.after_home))
            "graph.pdf";
          PrintSaved "graph.pdf"] ∧
  edge_weights (R:=Site.ranker) Site.home_scores (G Site.after_home)
    !! (Site.home, Site.home) = Some 333.
Proof. split; [reflexivity|vm_compute; reflexivity]. Qed.

(** * Further properties of the code *)

(** ** [normalize] *)

Section NormalizeMore.
Context {W : Web}.

Local Notation "s +++ t" := (String.append s t) (at level 60, right associativity).

(** A canonical URL has no ['#'] when the library's defragmented URLs have
    none, and is then its own canonical form. *)
Lemma normalize_fixed (u r : string) :
  (∀ v d f, defrag_parsed v = Some (d, f) → Url.contains "#" d = false) →
  normalize u = Some r → normalize r = Some r.
Proof.
  intros Hlaw Hu.
  assert (∃ d, r = Url.rstrip "/" d ∧ Url.contains "#" d = false)
    as (d & -> & Hd).
  { unfold normalize, urldefrag in Hu.
    destruct (Url.contains "#" u) eqn:Hhash.
    - destruct (defrag_parsed u) as [[d f]|] eqn:Hd; [|done].
      injection Hu as <-. exists d. split; [done|]. by apply (Hlaw u d f).
    - injection Hu as <-. by exists u. }
  rewrite normalize_plain by (by apply rstrip_no_hash).
  by rewrite rstrip_idem.
Qed.

(** X1: [normalize] is idempotent where it returns: when [normalize u]
    returns [r], [normalize r] returns [r].  This uses that the URL part
    which the library's [urldefrag] puts together has no ['#'] in it. *)
Theorem normalize_idempotent (u r : string)
    (Hlaw : ∀ v d f, defrag_parsed v = Some (d, f) →
                     Url.contains "#" d = false)
    (Hu : normalize u = Some r) :
  normalize r = Some r.
Proof. by apply normalize_fixed with u. Qed.

(** X2: [normalize u] is the empty string exactly when the URL part that
    [urldefrag u] returns consists of slashes only; for [u] without ['#']
    that is when [u] itself consists of slashes only (as [""], ["/"] and
    ["//"]). *)
Theorem normalize_empty_iff (u : string) :
  (normalize u = Some EmptyString ↔
   ∃ k f, urldefrag u = Some (Url.slashes k, f)) ∧
  (Url.contains "#" u = false →
   (normalize u = Some EmptyString ↔ ∃ k, u = Url.slashes k)).
Proof.
  split.
  - unfold normalize. destruct (urldefrag u) as [[d f]|]; split.
    + intros [= Hd]. destruct (rstrip_empty_inv d Hd) as [k ->]. by exists k, f.
    + intros (k & f' & [= -> _]). by rewrite rstrip_slashes.
    + done.
    + by intros (k & f & ?).
  - intros Hu. rewrite normalize_plain by done. split.
    + intros [= Hd]. by apply rstrip_empty_inv.
    + intros [k ->]. by rewrite rstrip_slashes.
Qed.

End NormalizeMore.

(** ** The graph and the sets of [crawl] *)

Section CrawlMore.
Context {W : Web}.

Lemma reachable_canonical (root r u : string) :
  (∀ v d f, defrag_parsed v = Some (d, f) → Url.contains "#" d = false) →
  normalize root = Some r → reachable r u → normalize u = Some u.
Proof.
  intros Hlaw Hr.
  induction 1 as [|u v _ _ (c & hs & h & _ & _ & _ & Hv & _)].
  - by apply normalize_fixed with root.
  - unfold resolve in Hv. destruct (urljoin u h) as [joined|]; [|done].
    by apply normalize_fixed with joined.
Qed.

Lemma node_cases (root : string) (max_pages : Z) (st : crawl_state) (n : string) :
  crawl_inv root max_pages st → n ∈ nodes (G st) →
  n ∈ visited st ∨ ∃ u, u ∈ visited st ∧ links_to root u n.
Proof.
  intros Hinv [[? _]|[u Hu]]%(inv_nodes _ _ _ Hinv); [by left|right].
  exists u. by apply (inv_edges _ _ _ Hinv).
Qed.

Lemma same_domain_netloc (a b : string) :
  same_domain a b = Some true → netloc b = netloc a.
Proof. intros (n & -> & ->)%same_domain_true. done. Qed.

(** X3: whenever the loop condition is tested (so also in the graph that is
    returned), the edges are exactly the pairs [(u, v)] of a visited page [u]
    that was fetched and parsed and the canonical URL [v] of a same-domain
    link on it.  A link that occurs several times, with or without a
    fragment, gives one edge. *)
Theorem graph_edges_are_links (root : string) (max_pages : Z)
    (st : crawl_state) (Hhead : loop_head root max_pages st) :
  ∀ u v, (u, v) ∈ edges (G st) ↔ u ∈ visited st ∧ links_to root u v.
Proof. apply inv_edges with max_pages. by apply loop_head_inv. Qed.

(** X4: the graph is well formed and holds the pages read: both ends of
    every edge are nodes, every visited page that was fetched and parsed is
    a node even when it has no link, and every node is such a page or the
    target of an edge. *)
Theorem graph_nodes_are_pages (root : string) (max_pages : Z)
    (st : crawl_state) (Hhead : loop_head root max_pages st) :
  (∀ u v, (u, v) ∈ edges (G st) → u ∈ nodes (G st) ∧ v ∈ nodes (G st)) ∧
  (∀ n, n ∈ visited st → fetched n → n ∈ nodes (G st)) ∧
  (∀ n, n ∈ nodes (G st) →
        (n ∈ visited st ∧ fetched n) ∨ ∃ u, (u, n) ∈ edges (G st)).
Proof.
  pose proof (loop_head_inv _ _ _ Hhead) as Hinv. split_and!.
  - intros u v Huv. split.
    + apply (inv_nodes _ _ _ Hinv). left.
      apply (inv_edges _ _ _ Hinv) in Huv as [Hu (c & hs & _ & Hc & Hp & _)].
      split; [done|]. by exists c, hs.
    + apply (inv_nodes _ _ _ Hinv). right. by exists u.
  - intros n Hn Hf. apply (inv_nodes _ _ _ Hinv). by left.
  - intros n Hn. by apply (inv_nodes _ _ _ Hinv).
Qed.

(** X5: the crawl stays in the domain of the root: every URL in the
    frontier, in the visited set and in the graph has the network location
    of the root, so a link to another domain gives no node and no edge. *)
Theorem crawl_stays_in_domain (root : string) (max_pages : Z)
    (st : crawl_state) (Hhead : loop_head root max_pages st) :
  (∀ u, u ∈ to_visit st ∨ u ∈ visited st ∨ u ∈ nodes (G st) →
        netloc u = netloc root) ∧
  (∀ u v, (u, v) ∈ edges (G st) →
          netloc u = netloc root ∧ netloc v = netloc root).
Proof.
  pose proof (loop_head_inv _ _ _ Hhead) as Hinv.
  assert (∀ u, u ∈ to_visit st ∨ u ∈ visited st → netloc u = netloc root) as Hdom.
  { intros u Hu. destruct (inv_domain _ _ _ Hinv u Hu) as [[->|Hd] _]; [done|].
    by apply same_domain_netloc. }
  assert (∀ u v, links_to root u v → netloc v = netloc root) as Hlink.
  { intros u v (c & hs & h & _ & _ & _ & _ & Hd). by apply same_domain_netloc. }
  split.
  - intros u [Hu|[Hu|Hu]]; [apply Hdom; by left|apply Hdom; by right|].
    destruct (node_cases _ _ _ _ Hinv Hu) as [?|(u' & _ & Hl)].
    + apply Hdom. by right.
    + by apply Hlink with u'.
  - intros u v [Hu Hl]%(inv_edges _ _ _ Hinv). split.
    + apply Hdom. by right.
    + by apply Hlink with u.
Qed.

(** X6: [crawl] works on canonical URLs only: every URL in the frontier, in
    the visited set and in the graph is returned unchanged by [normalize].
    This uses that the URL part which the library's [urldefrag] puts
    together has no ['#'] in it. *)
Theorem crawl_urls_are_canonical (root r : string) (max_pages : Z)
    (st : crawl_state)
    (Hlaw : ∀ v d f, defrag_parsed v = Some (d, f) →
                     Url.contains "#" d = false)
    (Hroot : normalize root = Some r)
    (Hhead : loop_head r max_pages st) :
  ∀ u, u ∈ to_visit st ∨ u ∈ visited st ∨ u ∈ nodes (G st) →
       normalize u = Some u.
Proof.
  pose proof (loop_head_inv _ _ _ Hhead) as Hinv.
  assert (∀ u, u ∈ to_visit st ∨ u ∈ visited st → normalize u = Some u) as Hcan.
  { intros u Hu. apply reachable_canonical with root r; [done..|].
    by apply (inv_domain _ _ _ Hinv). }
  intros u [Hu|[Hu|Hu]]; [apply Hcan; by left|apply Hcan; by right|].
  destruct (node_cases _ _ _ _ Hinv Hu) as [?|(u' & Hu' & Hl)].
  - apply Hcan. by right.
  - apply reachable_canonical with root r; [done..|].
    apply reach_link with u'; [|done].
    apply (inv_domain _ _ _ Hinv). by right.
Qed.

(** X7: no link is lost: whenever the loop condition is tested, every
    same-domain link of every visited page is visited or waits in the
    frontier; and everything visited or waiting is reachable from the root
    by same-domain links. *)
Theorem no_link_is_lost (root : string) (max_pages : Z)
    (st : crawl_state) (Hhead : loop_head root max_pages st) :
  (∀ u v, u ∈ visited st → links_to root u v →
          v ∈ visited st ∨ v ∈ to_visit st) ∧
  (∀ u, u ∈ to_visit st ∨ u ∈ visited st → reachable root u).
Proof.
  pose proof (loop_head_inv _ _ _ Hhead) as Hinv. split.
  - apply (inv_closed _ _ _ Hinv).
  - intros u Hu. by apply (inv_domain _ _ _ Hinv).
Qed.

(** X8: when [crawl] returns with fewer than [max_pages] visited URLs, it
    has visited exactly the same-domain pages reachable from the root. *)
Theorem crawl_explores_everything (root : string) (max_pages : Z)
    (fuel : nat) (st : crawl_state)
    (Hrun : crawl root max_pages fuel = Some (Returned st))
    (Hleft : Z.of_nat (size (visited st)) < max_pages) :
  ∃ r, normalize root = Some r ∧
       ∀ u, u ∈ visited st ↔ reachable r u.
Proof.
  apply crawl_inv_loop in Hrun as (r & Hr & _ & Hrun); [|done].
  exists r. split; [done|].
  apply crawl_loop_Returned in Hrun as [Hhead Hcond]; [|constructor].
  pose proof (loop_head_inv _ _ _ Hhead) as Hinv.
  apply loop_cond_false in Hcond as [Hempty|Hfull]; [|lia].
  intros u. split.
  - intros Hu. apply (inv_domain _ _ _ Hinv). by right.
  - intros Hu. by eapply reachable_visited.
Qed.

End CrawlMore.

(** ** The trace of [crawl] *)

Section TraceFacts.
Context {W : Web}.

Lemma elem_of_requested (l : list crawl_event) (u : string) :
  u ∈ requested l ↔ Get u ∈ l.
Proof.
  induction l as [|[v|v] l IH]; simpl.
  - split; by intros ?%elem_of_nil.
  - rewrite !elem_of_cons, IH. split; intros [H|H]; auto.
    + left. by rewrite H.
    + left. by injection H.
  - rewrite elem_of_cons, IH. split; [by right|]. by intros [?|?].
Qed.

Lemma NoDup_requested (l : list crawl_event) :
  NoDup l → NoDup (requested l).
Proof.
  induction 1 as [|[v|v] l Hx _ IH]; simpl; [constructor| |done].
  apply NoDup_cons. split; [|done]. by rewrite elem_of_requested.
Qed.

Lemma grows_refl st : grows st st.
Proof.
  unfold grows. split_and!; [done..|]. exists []. by rewrite app_nil_r.
Qed.

Lemma grows_trans st1 st2 st3 : grows st1 st2 → grows st2 st3 → grows st1 st3.
Proof.
  intros (Hv & Hn & He & t & Hl) (Hv' & Hn' & He' & t' & Hl').
  unfold grows. split_and!; [set_solver..|].
  exists (t ++ t'). by rewrite Hl', Hl, app_assoc.
Qed.

(** One pass of the body adds and never takes away. *)
Lemma loop_body_grows root st st' :
  loop_body root st = Continue st' ∨ loop_body root st = Raise st' →
  grows st st'.
Proof.
  unfold loop_body. destruct (to_visit st) as [|url rest].
  { intros [?|[= <-]]; [done|apply grows_refl]. }
  case_bool_decide.
  { intros [[= <-]|?]; [|done]. unfold grows. state_fields.
    split_and!; [done..|]. exists []. by rewrite app_nil_r. }
  destruct (requests_get url) as [content|].
  2:{ intros [[= <-]|?]; [|done]. unfold grows. state_fields.
      split_and!; [set_solver|done|done|by eexists]. }
  destruct (find_hrefs content) as [hrefs|].
  2:{ intros [?|[= <-]]; [done|]. unfold grows. state_fields.
      split_and!; [set_solver|done|done|by eexists]. }
  destruct (visit_links_spec root url ({[url]} ∪ visited st)
              (Graph.add_node url (G st)) rest hrefs)
    as (pre & G' & tv' & [_ Hre Hrn _ _] & [[-> _]|[-> _]]);
    unfold Graph.add_node in *; state_fields.
  - intros [[= <-]|?]; [|done]. unfold grows. state_fields.
    split_and!; [set_solver| | |by eexists].
    + intros n Hn. apply Hrn. left. set_solver.
    + intros e He. apply Hre. by left.
  - intros [?|[= <-]]; [done|]. unfold grows. state_fields.
    split_and!; [set_solver| | |by eexists].
    + intros n Hn. apply Hrn. left. set_solver.
    + intros e He. apply Hre. by left.
Qed.

(** X9: every visited URL is requested exactly once, and nothing else is
    requested: the requests of the trace have no duplicate, they are the
    visited URLs, and there are as many of them as visited URLs (hence at
    most [max_pages] when that is not negative). *)
Theorem each_url_is_requested_once (root : string) (max_pages : Z)
    (st : crawl_state) (Hhead : loop_head root max_pages st) :
  NoDup (requested (log st)) ∧
  (∀ u, u ∈ requested (log st) ↔ u ∈ visited st) ∧
  List.length (requested (log st)) = size (visited st) ∧
  (0 ≤ max_pages → Z.of_nat (List.length (requested (log st))) ≤ max_pages).
Proof.
  pose proof (loop_head_inv _ _ _ Hhead) as Hinv.
  assert (NoDup (requested (log st))) as Hnd
    by apply NoDup_requested, (inv_log _ _ _ Hinv).
  assert (∀ u, u ∈ requested (log st) ↔ u ∈ visited st) as Hreq.
  { intros u. rewrite elem_of_requested. apply (inv_get _ _ _ Hinv). }
  assert (List.length (requested (log st)) = size (visited st)) as Hlen.
  { unfold size, set_size. simpl. apply Permutation_length.
    apply NoDup_Permutation; [done|apply NoDup_elements|].
    intros u. by rewrite Hreq, elem_of_elements. }
  split_and!; [done..|].
  intros Hpos. rewrite Hlen. pose proof (inv_budget _ _ _ Hinv). lia.
Qed.

(** X10: the message of a failed fetch is printed for exactly the visited
    URLs whose request raised, and for each of them once. *)
Theorem failure_messages_are_exact (root : string) (max_pages : Z)
    (st : crawl_state) (Hhead : loop_head root max_pages st) :
  (∀ u, PrintFailed u ∈ log st ↔ u ∈ visited st ∧ requests_get u = None) ∧
  NoDup (log st).
Proof.
  pose proof (loop_head_inv _ _ _ Hhead) as Hinv.
  split; [apply (inv_failed _ _ _ Hinv)|apply (inv_log _ _ _ Hinv)].
Qed.

(** X11: the loop only adds: from any state on, the state in which the loop
    ends (by return or by an exception) has every visited URL, node and edge
    of the earlier state, and a trace that extends the earlier one. *)
Theorem crawl_only_grows (root : string) (max_pages : Z) (fuel : nat)
    (st st' : crawl_state)
    (Hrun : crawl_loop root max_pages fuel st = Some (Returned st') ∨
            crawl_loop root max_pages fuel st = Some (Raised st')) :
  grows st st'.
Proof.
  revert st Hrun. induction fuel as [|fuel IH]; intros st; simpl.
  - destruct (loop_cond max_pages st); [by intros [?|?]|].
    intros [[= <-]|?]; [apply grows_refl|done].
  - destruct (loop_cond max_pages st).
    2:{ intros [[= <-]|?]; [apply grows_refl|done]. }
    destruct (loop_body root st) as [st1|st1] eqn:Hbody.
    + intros Hrun. apply grows_trans with st1; [|by apply IH].
      apply loop_body_grows with root. by left.
    + intros [?|[= <-]]; [done|]. apply loop_body_grows with root. by right.
Qed.

Lemma root_then_rest (root : string) (max_pages : Z) (st : crawl_state) :
  loop_head root max_pages st →
  st = init root ∨ (root ∈ visited st ∧ ∃ tail, log st = Get root :: tail).
Proof.
  intros Hhead.
  induction Hhead as [|st st' _ IH Hcond Hbody]; [by left|right].
  destruct IH as [->|[Hroot [tail Hlog]]].
  - destruct (loop_body_Continue _ _ _ Hbody)
      as (url & rest & [= <- <-] &
          [[Hv ->]|[(Hv & Hnone & ->)
                   |(Hv & c & hs & G' & tv' & _ & _ & _ & _ & ->)]]);
      state_fields.
    + set_solver.
    + split; [set_solver|]. by eexists.
    + split; [set_solver|]. by eexists.
  - destruct (loop_body_grows root st st') as (Hv & _ & _ & t & Hl); [by left|].
    split; [set_solver|]. exists (tail ++ t). by rewrite Hl, Hlog.
Qed.

(** X12: the root is the first URL requested: at every test of the loop
    condition after the first, the root is visited and the trace begins
    with the request of the root. *)
Theorem root_is_fetched_first (root : string) (max_pages : Z)
    (st : crawl_state) (Hhead : loop_head root max_pages st) :
  st = init root ∨ (root ∈ visited st ∧ ∃ tail, log st = Get root :: tail).
Proof. by apply root_then_rest with max_pages. Qed.

(** X13: [crawl] always ends, within [max_pages] passes of the loop body.
    It returns, with the frontier empty or the budget used up; or an
    exception leaves the loop on a page that was fetched, raised by the
    parser or by a URL function on one of the links of the page; or an
    exception is raised before the loop, by [normalize] or [urlparse] on
    the root. *)
Theorem crawl_always_ends (root : string) (max_pages : Z) :
  ∃ o,
    (∀ fuel, (Z.to_nat max_pages ≤ fuel)%nat →
             crawl root max_pages fuel = Some o) ∧
    match o with
    | Returned st =>
        to_visit st = [] ∨ max_pages ≤ Z.of_nat (size (visited st))
    | Raised st =>
        ∃ url content, url ∈ visited st ∧
          requests_get url = Some content ∧
          (find_hrefs content = None ∨
           ∃ hrefs href r,
             find_hrefs content = Some hrefs ∧ href ∈ hrefs ∧
             normalize root = Some r ∧ link_raises r url href)
    | RaisedBefore =>
        normalize root = None ∨
        ∃ r, normalize root = Some r ∧ netloc r = None
    end.
Proof.
  unfold crawl. destruct (normalize root) as [r|] eqn:Hr.
  2:{ exists RaisedBefore. split; [done|by left]. }
  destruct (netloc r) as [d|] eqn:Hd.
  2:{ exists RaisedBefore. split; [done|]. right. by exists r. }
  destruct (crawl_loop_total r max_pages (Z.to_nat max_pages) (init r))
    as [o Hrun].
  - apply crawl_inv_init.
  - unfold init. state_fields. rewrite size_empty. lia.
  - exists o. split.
    + intros fuel Hfuel. by apply crawl_loop_mono with (Z.to_nat max_pages).
    + destruct o as [st|st|].
      * apply crawl_loop_Returned in Hrun as [_ Hcond]; [|constructor].
        by apply loop_cond_false.
      * apply crawl_loop_Raised in Hrun as (st0 & _ & Hcond & Hbody);
          [|constructor].
        apply loop_cond_true in Hcond as [Hne _].
        destruct (loop_body_Raise _ _ _ Hbody Hne)
          as (url & rest & c & _ & _ & Hc & Hvis & _ & Hwhy).
        exists url, c. split_and!; [rewrite Hvis; set_solver|done|].
        destruct Hwhy as [[Hnone _]|(hs & pre & h & post & Hp & -> & Hraise & _)];
          [by left|right].
        exists (pre ++ h :: post), h, r. split_and!; [done| |done..].
        apply elem_of_app. right. left.
      * by apply crawl_loop_not_before in Hrun.
Qed.

End TraceFacts.

(** ** A root that cannot be fetched, and the weights *)

Section MainMore.
Context {W : Web} {R : Ranker}.

(** X14: when [normalize] and [urlparse] accept the root, the request of
    the canonical root raises and the budget is positive, [crawl] visits the
    root alone, reports the failure and returns the empty graph; [main]
    then prints zero counts and the notice of the empty graph, calls no
    ranker and saves no file. *)
Theorem unreachable_root_gives_empty_graph (root r : string) (max_pages : Z)
    (output : string) (fuel : nat)
    (Hpos : 0 < max_pages)
    (Hroot : normalize root = Some r)
    (Hnet : is_Some (netloc r))
    (Hfail : requests_get r = None) :
  crawl root max_pages (S fuel) =
    Some (Returned (mkState [] ({[r]} ∪ ∅) Graph.empty
                      [Get r; PrintFailed r])) ∧
  main root max_pages output (S fuel) =
    Some (Done [PrintCrawled 0 0; PrintEmpty]).
Proof.
  assert (crawl root max_pages (S fuel) =
          Some (Returned (mkState [] ({[r]} ∪ ∅) Graph.empty
                            [Get r; PrintFailed r]))) as Hrun.
  { rewrite (crawl_loop_of_crawl root r) by done.
    assert (loop_cond max_pages (init r) = true) as Hcond.
    { apply loop_cond_true. unfold init. state_fields.
      rewrite size_empty. split; [done|lia]. }
    assert (loop_body r (init r) =
            Continue (mkState [] ({[r]} ∪ ∅) Graph.empty
                        [Get r; PrintFailed r])) as Hbody.
    { unfold loop_body, init. state_fields.
      rewrite bool_decide_eq_false_2 by set_solver. by rewrite Hfail. }
    cbn [crawl_loop]. rewrite Hcond, Hbody.
    destruct fuel; cbn [crawl_loop]; unfold loop_cond; state_fields;
      by rewrite bool_decide_eq_false_2 by (by intros []). }
  split; [done|].
  unfold main. rewrite Hrun. unfold Graph.empty. state_fields.
  by rewrite !size_empty.
Qed.


End MainMore.

(** ** The labels of the drawing *)

Section LabelFacts.

Local Notation "s +++ t" := (String.append s t) (at level 60, right associativity).

Lemma remove_from_absent (old s : string) :
  Label.occurs old s = false → Label.remove_from old 0 s = s.
Proof.
  induction s as [|a t IH]; [done|].
  cbn [Label.occurs Label.remove_from].
  intros [Hp Ht]%orb_false_iff. rewrite Hp. f_equal. by apply IH.
Qed.

Lemma remove_all_absent (old s : string) :
  Label.occurs old s = false → Label.remove_all old s = s.
Proof.
  intros H. unfold Label.remove_all. destruct old; [done|].
  by apply remove_from_absent.
Qed.

(** X16: a node name in which neither ["http://"] nor ["https://"] occurs
    is its own label. *)
Theorem label_without_scheme (s : string)
    (Hhttp : Label.occurs "http://" s = false)
    (Hhttps : Label.occurs "https://" s = false) :
  Label.label s = s.
Proof.
  unfold Label.label. by rewrite (remove_all_absent "https://"), remove_all_absent.
Qed.

Lemma remove_http_prefix (r : string) :
  Label.remove_from "http://" 0 ("http://" +++ r) = Label.remove_from "http://" 0 r.
Proof. by destruct r. Qed.

Lemma remove_https_prefix (r : string) :
  Label.remove_from "https://" 0 ("https://" +++ r)
  = Label.remove_from "https://" 0 r.
Proof. by destruct r. Qed.

Lemma remove_https_after_http (r : string) :
  Label.remove_from "https://" 0 ("http://" +++ r)
  = "http://" +++ Label.remove_from "https://" 0 r.
Proof. reflexivity. Qed.

(** X17: the label of an [http] or [https] URL is the URL without its
    scheme, when no scheme text occurs in the rest of it. *)
Theorem label_strips_scheme (r : string)
    (Hhttp : Label.occurs "http://" r = false)
    (Hhttps : Label.occurs "https://" r = false) :
  Label.label ("http://" +++ r) = r ∧ Label.label ("https://" +++ r) = r.
Proof.
  unfold Label.label, Label.remove_all. split.
  - rewrite remove_https_after_http.
    rewrite (remove_from_absent "https://" r) by done.
    rewrite remove_http_prefix. by apply remove_from_absent.
  - rewrite remove_https_prefix.
    rewrite (remove_from_absent "https://" r) by done.
    by apply remove_from_absent.
Qed.

End LabelFacts.

(** ** When the graph is empty *)

Section EmptyGraph.
Context {W : Web}.

(** A visited URL could not be fetched, or it was fetched and parsed. *)
Lemma visited_outcome (root : string) (max_pages : Z) (st : crawl_state) :
  loop_head root max_pages st →
  ∀ u, u ∈ visited st → requests_get u = None ∨ fetched u.
Proof.
  induction 1 as [|st st' _ IH Hcond Hbody]; [set_solver|].
  destruct (loop_body_Continue _ _ _ Hbody)
    as (url & rest & _ &
        [[Hv ->]|[(Hv & Hnone & ->)
                 |(Hv & c & hs & G' & tv' & Hc & Hp & _ & _ & ->)]]);
    state_fields.
  - done.
  - intros u [->%elem_of_singleton|Hu]%elem_of_union; [by left|by apply IH].
  - intros u [->%elem_of_singleton|Hu]%elem_of_union; [|by apply IH].
    right. by exists c, hs.
Qed.

(** Nothing but the root is reachable from a root that cannot be fetched. *)
Lemma reachable_from_failed_root (root u : string) :
  requests_get root = None → reachable root u → u = root.
Proof.
  intros Hnone. induction 1 as [|u v _ -> (c & hs & h & Hc & _)]; [done|].
  congruence.
Qed.

(** X18: every node of the graph is a visited URL or still waits in the
    frontier; a link target that the budget left unvisited is a node all
    the same. *)
Theorem nodes_are_visited_or_pending (root : string) (max_pages : Z)
    (st : crawl_state) (Hhead : loop_head root max_pages st) :
  ∀ n, n ∈ nodes (G st) → n ∈ visited st ∨ n ∈ to_visit st.
Proof.
  pose proof (loop_head_inv _ _ _ Hhead) as Hinv.
  intros n Hn. destruct (node_cases _ _ _ _ Hinv Hn) as [?|(u & Hu & Hl)].
  - by left.
  - by apply (inv_closed _ _ _ Hinv u).
Qed.

(** X19: the graph that [crawl] returns has no node exactly when the budget
    is not positive or the request of the canonical root raised; in every
    other case the canonical root is a node of it. *)
Theorem returned_graph_is_empty_iff (root : string) (max_pages : Z)
    (fuel : nat) (st : crawl_state)
    (Hrun : crawl root max_pages fuel = Some (Returned st)) :
  ∃ r, normalize root = Some r ∧
    (nodes (G st) = ∅ ↔ max_pages ≤ 0 ∨ requests_get r = None) ∧
    (nodes (G st) ≠ ∅ → r ∈ nodes (G st)).
Proof.
  apply crawl_inv_loop in Hrun as (r & Hr & _ & Hrun); [|done].
  exists r. split; [done|].
  apply crawl_loop_Returned in Hrun as [Hhead Hcond]; [|constructor].
  pose proof (loop_head_inv _ _ _ Hhead) as Hinv.
  destruct (root_then_rest _ _ _ Hhead) as [->|[Hroot _]].
  - unfold init, Graph.empty in *. state_fields.
    apply loop_cond_false in Hcond as [?|Hle]; [done|]. state_fields.
    rewrite size_empty in Hle. split; [|done]. split; [|done]. left. lia.
  - assert (0 < max_pages) as Hpos.
    { pose proof (inv_budget _ _ _ Hinv) as Hb.
      assert (size (visited st) ≠ 0%nat); [|lia].
      intros Hz. apply size_empty_inv in Hz. set_solver. }
    destruct (visited_outcome _ _ _ Hhead r Hroot) as [Hnone|Hf].
    + assert (nodes (G st) = ∅) as Hempty.
      { apply set_eq. intros n. split; [|set_solver]. intros Hn. exfalso.
        assert (∀ u, u ∈ visited st → u = r) as Honly.
        { intros u Hu. apply reachable_from_failed_root; [done|].
          apply (inv_domain _ _ _ Hinv). by right. }
        apply (inv_nodes _ _ _ Hinv) in Hn as [[Hn (c & hs & Hc & _)]|[u Hu]].
        - rewrite (Honly n Hn) in Hc. congruence.
        - apply (inv_edges _ _ _ Hinv) in Hu as [Hu (c & hs & h & Hc & _)].
          rewrite (Honly u Hu) in Hc. congruence. }
      split; [|done]. split; [by right|done].
    + assert (r ∈ nodes (G st)) as Hnode
        by (apply (inv_nodes _ _ _ Hinv); by left).
      split; [|done]. split.
      * intros Hempty. rewrite Hempty in Hnode. set_solver.
      * intros [?|Hnone]; [lia|].
        destruct Hf as (c & hs & Hc & _). congruence.
Qed.

End EmptyGraph.

(** ** The further properties on the small site *)

Lemma after_home_is_head : loop_head (W:=Site.web) Site.home 5 Site.after_home.
Proof.
  apply head_next with (init Site.home).
  - constructor.
  - reflexivity.
  - vm_compute. reflexivity.
Qed.

(** The text before the first ['#'] has no ['#']. *)
Lemma split_hash_no_hash (url : string) :
  Url.contains "#" (fst (Site.split_hash url)) = false.
Proof.
  induction url as [|a t IH]; simpl; [done|].
  destruct (Ascii.eqb a "#") eqn:Ha; simpl; [done|].
  destruct (Site.split_hash t) as [d f]; simpl in *. by rewrite Ha.
Qed.

Lemma site_defrag_no_hash (v d f : string) :
  defrag_parsed (Web:=Site.web) v = Some (d, f) → Url.contains "#" d = false.
Proof.
  simpl. unfold Site.site_defrag.
  destruct (Site.site_netloc _); [|done].
  intros [= <-]%(f_equal (fmap fst)). apply split_hash_no_hash.
Qed.

Lemma normalize_idempotent_witness :
  normalize (W:=Site.web) "http://a.com/b/#top" = Some "http://a.com/b" ∧
  normalize (W:=Site.web) "http://a.com/b" = Some "http://a.com/b".
Proof.
  split; [reflexivity|].
  apply (normalize_idempotent (W:=Site.web) "http://a.com/b/#top"
           "http://a.com/b").
  - exact site_defrag_no_hash.
  - reflexivity.
Defined.

Lemma normalize_empty_iff_witness :
  Url.contains "#" "//" = false ∧
  (normalize (W:=Site.web) "//" = Some EmptyString ↔ ∃ k, "//" = Url.slashes k).
Proof.
  split; [reflexivity|].
  apply (proj2 (normalize_empty_iff (W:=Site.web) "//")). reflexivity.
Defined.

Lemma graph_edges_are_links_witness :
  loop_head (W:=Site.web) Site.home 5 Site.after_home ∧
  ∀ u v, (u, v) ∈ edges (G Site.after_home) ↔
         u ∈ visited Site.after_home ∧ links_to (W:=Site.web) Site.home u v.
Proof.
  split; [exact after_home_is_head|].
  apply (graph_edges_are_links (W:=Site.web) Site.home 5 Site.after_home).
  exact after_home_is_head.
Defined.

Lemma graph_nodes_are_pages_witness :
  loop_head (W:=Site.web) Site.home 5 Site.after_home ∧
  ∀ u v, (u, v) ∈ edges (G Site.after_home) →
         u ∈ nodes (G Site.after_home) ∧ v ∈ nodes (G Site.after_home).
Proof.
  split; [exact after_home_is_head|].
  apply (graph_nodes_are_pages (W:=Site.web) Site.home 5 Site.after_home).
  exact after_home_is_head.
Defined.

Lemma crawl_stays_in_domain_witness :
  loop_head (W:=Site.web) Site.home 5 Site.after_home ∧
  ∀ u v, (u, v) ∈ edges (G Site.after_home) →
         netloc (Web:=Site.web) u = netloc (Web:=Site.web) Site.home ∧
         netloc (Web:=Site.web) v = netloc (Web:=Site.web) Site.home.
Proof.
  split; [exact after_home_is_head|].
  apply (crawl_stays_in_domain (W:=Site.web) Site.home 5 Site.after_home).
  exact after_home_is_head.
Defined.

Lemma crawl_urls_are_canonical_witness :
  normalize (W:=Site.web) "http://a.com/" = Some Site.home ∧
  loop_head (W:=Site.web) Site.home 5 Site.after_home ∧
  ∀ u, u ∈ to_visit Site.after_home ∨ u ∈ visited Site.after_home ∨
       u ∈ nodes (G Site.after_home) → normalize (W:=Site.web) u = Some u.
Proof.
  split; [reflexivity|]. split; [exact after_home_is_head|].
  apply (crawl_urls_are_canonical (W:=Site.web) "http://a.com/" Site.home 5
           Site.after_home).
  - exact site_defrag_no_hash.
  - reflexivity.
  - exact after_home_is_head.
Defined.

Lemma no_link_is_lost_witness :
  loop_head (W:=Site.web) Site.home 5 Site.after_home ∧
  ∀ u, u ∈ to_visit Site.after_home ∨ u ∈ visited Site.after_home →
       reachable (W:=Site.web) Site.home u.
Proof.
  split; [exact after_home_is_head|].
  apply (no_link_is_lost (W:=Site.web) Site.home 5 Site.after_home).
  exact after_home_is_head.
Defined.

Lemma crawl_explores_everything_witness :
  crawl (W:=Site.web) "http://a.com/" 10 10 = Some (Returned Site.crawled) ∧
  Z.of_nat (size (visited Site.crawled)) < 10 ∧
  ∃ r, normalize (W:=Site.web) "http://a.com/" = Some r ∧
       ∀ u, u ∈ visited Site.crawled ↔ reachable (W:=Site.web) r u.
Proof.
  split; [vm_compute; reflexivity|]. split; [reflexivity|].
  apply (crawl_explores_everything (W:=Site.web) "http://a.com/" 10 10
           Site.crawled); [vm_compute; reflexivity|reflexivity].
Defined.

Lemma each_url_is_requested_once_witness :
  loop_head (W:=Site.web) Site.home 5 Site.after_home ∧
  List.length (requested (log Site.after_home)) = size (visited Site.after_home).
Proof.
  split; [exact after_home_is_head|].
  apply (each_url_is_requested_once (W:=Site.web) Site.home 5 Site.after_home).
  exact after_home_is_head.
Defined.

(** The state of the full crawl of the small site, in which the fetch of
    one page has failed, is a loop head. *)
Lemma crawled_is_head : loop_head (W:=Site.web) Site.home 10 Site.crawled.
Proof.
  apply (crawl_loop_Returned (W:=Site.web) Site.home 10 10 (init Site.home)).
  - constructor.
  - vm_compute. reflexivity.
Qed.

Lemma failure_messages_are_exact_witness :
  loop_head (W:=Site.web) Site.home 10 Site.crawled ∧
  PrintFailed "http://a.com/missing" ∈ log Site.crawled ∧
  ∀ u, PrintFailed u ∈ log Site.crawled ↔
       u ∈ visited Site.crawled ∧ requests_get (Web:=Site.web) u = None.
Proof.
  split; [exact crawled_is_head|].
  split; [vm_compute; repeat first [by left | right]|].
  apply (failure_messages_are_exact (W:=Site.web) Site.home 10 Site.crawled).
  exact crawled_is_head.
Defined.

Lemma crawl_only_grows_witness :
  crawl_loop (W:=Site.web) Site.home 10 10 Site.after_home
    = Some (Returned Site.crawled) ∧
  grows Site.after_home Site.crawled.
Proof.
  split; [vm_compute; reflexivity|].
  apply (crawl_only_grows (W:=Site.web) Site.home 10 10 Site.after_home
           Site.crawled).
  left. vm_compute. reflexivity.
Defined.

Lemma root_is_fetched_first_witness :
  loop_head (W:=Site.web) Site.home 5 Site.after_home ∧
  (Site.after_home = init Site.home ∨
   (Site.home ∈ visited Site.after_home ∧
    ∃ tail, log Site.after_home = Get Site.home :: tail)).
Proof.
  split; [exact after_home_is_head|].
  apply (root_is_fetched_first (W:=Site.web) Site.home 5 Site.after_home).
  exact after_home_is_head.
Defined.

Lemma unreachable_root_gives_empty_graph_witness :
  0 < 5 ∧
  normalize (W:=Site.web) "http://a.com/missing/" = Some "http://a.com/missing" ∧
  netloc (Web:=Site.web) "http://a.com/missing" = Some "a.com" ∧
  requests_get (Web:=Site.web) "http://a.com/missing" = None ∧
  main (W:=Site.web) (R:=Site.ranker) "http://a.com/missing/" 5 "graph.pdf" 1
    = Some (Done [PrintCrawled 0 0; PrintEmpty]).
Proof.
  split; [lia|]. split; [reflexivity|]. split; [reflexivity|].
  split; [reflexivity|].
  apply (unreachable_root_gives_empty_graph (W:=Site.web) (R:=Site.ranker)
           "http://a.com/missing/" "http://a.com/missing" 5 "graph.pdf" 0);
    [lia|reflexivity|by eexists|reflexivity].
Defined.


Lemma label_without_scheme_witness :
  Label.occurs "http://" "a.com/about" = false ∧
  Label.occurs "https://" "a.com/about" = false ∧
  Label.label "a.com/about" = "a.com/about".
Proof.
  split; [reflexivity|]. split; [reflexivity|].
  apply (label_without_scheme "a.com/about"); reflexivity.
Defined.

Lemma label_strips_scheme_witness :
  Label.occurs "http://" "a.com/about" = false ∧
  Label.occurs "https://" "a.com/about" = false ∧
  Label.label "http://a.com/about" = "a.com/about" ∧
  Label.label "https://a.com/about" = "a.com/about".
Proof.
  split; [reflexivity|]. split; [reflexivity|].
  apply (label_strips_scheme "a.com/about"); reflexivity.
Defined.

Lemma nodes_are_visited_or_pending_witness :
  loop_head (W:=Site.web) Site.home 5 Site.after_home ∧
  ∀ n, n ∈ nodes (G Site.after_home) →
       n ∈ visited Site.after_home ∨ n ∈ to_visit Site.after_home.
Proof.
  split; [exact after_home_is_head|].
  apply (nodes_are_visited_or_pending (W:=Site.web) Site.home 5 Site.after_home).
  exact after_home_is_head.
Defined.

Lemma returned_graph_is_empty_iff_witness :
  crawl (W:=Site.web) "http://a.com/" 10 10 = Some (Returned Site.crawled) ∧
  ∃ r, normalize (W:=Site.web) "http://a.com/" = Some r ∧
       (nodes (G Site.crawled) = ∅ ↔
        10 ≤ 0 ∨ requests_get (Web:=Site.web) r = None) ∧
       (nodes (G Site.crawled) ≠ ∅ → r ∈ nodes (G Site.crawled)).
Proof.
  split; [vm_compute; reflexivity|].
  apply (returned_graph_is_empty_iff (W:=Site.web) "http://a.com/" 10 10
           Site.crawled).
  vm_compute. reflexivity.
Defined.

(** A root that [urlparse] rejects raises before the loop, whatever the
    budget. *)
Example malformed_root_raises :
  crawl (W:=Site.web) "http://[bad" 0 0 = Some RaisedBefore ∧
  crawl (W:=Site.web) "http://[bad" 5 5 = Some RaisedBefore.
Proof. split; reflexivity. Qed.
